(** * Benchmark module for the array-based lock-free queue (alf_queue_bench.c)

    A shallow embedding of [kernel/lib/alf_queue_bench.c]: the loop-overhead
    calibrator, the three enqueue/dequeue workloads and the driver, together
    with the properties of the operation counts they return.

    Conventions.
    - C integers are values of [Z]; every conversion the C code performs
      (to [uint64_t], to [uint32_t], to [int]) is written out.  The module is
      built by kbuild, hence with [-fno-strict-overflow]: [i++] on an [int]
      wraps, and gcc converts an out-of-range value to [int] by reducing it
      modulo [2^32].
    - The queue ([linux/alf_queue.h]) and the timing harness
      ([linux/time_bench.h]) are external: the queue is an interface
      ([alf_queue_ops]), the harness calls are recorded in a trace.
    - A trace lists the observable calls of a run, most recent first.
    - [barrier()] only constrains the compiler and has no counterpart here;
      the pointers a dequeue stores into [deq_obj]/[deq_objs] are never read
      by the benchmark, so a dequeue is modelled by its return code and its
      effect on the queue. *)

From Stdlib Require Import ZArith List Lia Bool String.
Import ListNotations.
Local Open Scope Z_scope.

(** ** Machine integers *)

Module CInt.

Definition two32 : Z := 4294967296.
Definition two31 : Z := 2147483648.
Definition two64 : Z := 18446744073709551616.

(** Conversion to [uint64_t]. *)
Definition to_u64 (z : Z) : Z := z mod two64.

(** Conversion to [uint32_t] (also: an [int] operand converted for a
    comparison against an unsigned one). *)
Definition to_u32 (z : Z) : Z := z mod two32.

(** Conversion to [int]: reduce modulo [2^32], read the result as a signed
    two's complement number. *)
Definition to_int (z : Z) : Z :=
  let m := z mod two32 in if m <? two31 then m else m - two32.

(** [(1ULL<<32)-1], the limit of the overflow guard. *)
Definition guard_limit : Z := to_u64 (to_u64 (Z.shiftl 1 32) - 1).

End CInt.
Import CInt.

(** ** Bounded iteration

    A C loop is run one trip at a time: a trip evaluates the loop condition
    and, when it holds, the body and the increment.  A trip either hands over
    the next state ([inl]) or leaves the loop ([inr]).  Trips are counted with
    a binary budget, so that a loop over a 32-bit counter is a total function
    that still evaluates in time proportional to the trips it really makes. *)

Section Iterate.
Context {St Res : Type}.
Variable trip : St -> St + Res.

Fixpoint iter_nat (n : nat) (s : St) : St + Res :=
  match n with
  | O => inl s
  | S k => match trip s with
           | inl s' => iter_nat k s'
           | inr r => inr r
           end
  end.

Fixpoint iter_pos (p : positive) (s : St) : St + Res :=
  match p with
  | xH => trip s
  | xO p' => match iter_pos p' s with
             | inl s' => iter_pos p' s'
             | inr r => inr r
             end
  | xI p' => match trip s with
             | inl s1 => match iter_pos p' s1 with
                         | inl s2 => iter_pos p' s2
                         | inr r => inr r
                         end
             | inr r => inr r
             end
  end.

End Iterate.

(** How a loop is left: its condition became false, the body jumped to the
    [fail:] label, or the trip budget ran out (which [for_loop_rule] below
    excludes for every loop of this file). *)
Inductive leave (St : Type) : Type :=
| LoopEnd (s : St)
| GotoFail (s : St)
| Unfinished (s : St).
Arguments LoopEnd {St} s.
Arguments GotoFail {St} s.
Arguments Unfinished {St} s.

(** A loop over an [int] counter compared against a 32-bit bound makes at most
    [2^32] trips, the last one being the failed test. *)
Definition max_trips : positive := 4294967296%positive.

Definition for_loop {St : Type} (trip : St -> St + leave St) (s : St) : leave St :=
  match iter_pos trip max_trips s with
  | inr l => l
  | inl s' => Unfinished s'
  end.

(** ** Observable calls *)

(** The pointers the benchmark hands to the queue: [&on_stack] and the fake
    pointers [(void * )(unsigned long)(i+20)]. *)
Inductive ptr : Type :=
| OnStack
| FakePtr (v : Z).

Inductive event : Type :=
| TimeBenchStart                          (* time_bench_start(rec) *)
| TimeBenchStop (invoked_cnt : Z)         (* time_bench_stop(rec, invoked_cnt) *)
| PrErr (msg : string)
| PrWarn (msg : string) (args : list Z)
| PrInfo (msg : string)
| MpEnqueue (n : Z) (r : Z)               (* alf_mp_enqueue(queue, _, n) returned r *)
| McDequeue (n : Z) (r : Z)               (* alf_mc_dequeue(queue, _, n) returned r *)
| QueueAlloc (size : Z) (ok : bool)       (* alf_queue_alloc(size, GFP_KERNEL) *)
| QueueFree                               (* alf_queue_free(MPMC) *)
| BenchLoop (txt : string) (r : Z).       (* time_bench_loop ran a workload that returned r *)

Definition is_queue_call (e : event) : bool :=
  match e with MpEnqueue _ _ | McDequeue _ _ => true | _ => false end.

(** The call reported failure: the C code tests [... < 0]. *)
Definition call_failed (e : event) : bool :=
  match e with MpEnqueue _ r | McDequeue _ r => r <? 0 | _ => false end.

Definition is_start (e : event) : bool :=
  match e with TimeBenchStart => true | _ => false end.

Definition is_stop (e : event) : bool :=
  match e with TimeBenchStop _ => true | _ => false end.

Definition is_warning (e : event) : bool :=
  match e with PrWarn _ _ => true | _ => false end.

(** The number of pointers a queue call asked for. *)
Definition width_of (e : event) : option Z :=
  match e with MpEnqueue n _ | McDequeue n _ => Some n | _ => None end.

Definition queue_calls (tr : list event) : list event := filter is_queue_call tr.
Definition any_failure (tr : list event) : bool := existsb call_failed tr.
Definition timer_started (tr : list event) : bool := existsb is_start tr.
Definition timer_stopped (tr : list event) : bool := existsb is_stop tr.
Definition warnings (tr : list event) : list event := filter is_warning tr.

(** Every queue call of the trace asked for [w] pointers. *)
Definition calls_of_width (w : Z) (tr : list event) : Prop :=
  Forall (fun e => forall n, width_of e = Some n -> n = w) tr.

(** The run was cut short by a failed call: that call is the last thing that
    happened, no earlier call failed and the timer was never stopped. *)
Definition stops_at_failure (tr : list event) : Prop :=
  exists e rest,
    tr = e :: rest /\ call_failed e = true /\ any_failure rest = false /\
    timer_stopped tr = false.

(** ** External interfaces *)

(** The queue of [linux/alf_queue.h], by its call contract: an operation takes
    the queue to a new state and returns the number of pointers transferred or
    a negative error code.  [alf_queue_alloc] yields [None] for a failed
    allocation. *)
Class alf_queue_ops (Q : Type) : Type := {
  alf_queue_alloc : Z -> option Q;
  alf_mp_enqueue : Q -> list ptr -> Z -> Z * Q;
  alf_mc_dequeue : Q -> Z -> Z * Q
}.

(** Modelled from the spec: [struct time_bench_record] is declared in
    [linux/time_bench.h], which is not part of this file; the record handed
    to a workload exposes [loops], an unsigned 32-bit count, and [step].
    Whatever the type of [step], the workloads read it into an [int]. *)
Record time_bench_record : Type := {
  loops : Z;
  step : Z
}.

Definition wf_record (rec : time_bench_record) : Prop := 0 <= loops rec < two32.

(** [-ECANCELED], from the kernel's errno table. *)
Definition ECANCELED : Z := 125.

Definition MAX_BULK : Z := 32.

Definition msg_need_queue : string := "Need queue struct ptr as input".
Definition msg_need_alf_queue : string := "Need alf_queue as input".
Definition msg_overflow : string := "Loop cnt too big will overflow 32-bit".
Definition msg_bulk_cap : string := "%s() bulk(%d) request too big cap at %d".

(** ** The benchmark functions *)

(** The local variables of a workload, the object [data] refers to and the
    trace so far. *)
Record frame (D : Type) : Type := {
  f_i : Z;            (* int i *)
  f_n : Z;            (* int n *)
  f_loops_cnt : Z;    (* uint64_t loops_cnt *)
  f_data : D;
  f_trace : list event
}.
Arguments f_i {D} f.
Arguments f_n {D} f.
Arguments f_loops_cnt {D} f.
Arguments f_data {D} f.
Arguments f_trace {D} f.

(** What a function leaves behind: its return value, the queue [data] refers
    to ([None] for a null pointer) and the calls it made. *)
Record result (Q : Type) : Type := {
  ret : Z;
  queue_after : option Q;
  trace : list event
}.
Arguments ret {Q} r.
Arguments queue_after {Q} r.
Arguments trace {Q} r.

Section Locals.
Context {D : Type}.

Definition entry (d : D) : frame D :=
  {| f_i := 0; f_n := 0; f_loops_cnt := 0; f_data := d; f_trace := [] |}.

(** [i++] *)
Definition incr_i (f : frame D) : frame D :=
  {| f_i := to_int (f_i f + 1); f_n := f_n f; f_loops_cnt := f_loops_cnt f;
     f_data := f_data f; f_trace := f_trace f |}.

(** [n = v] and [n++] *)
Definition set_n (v : Z) (f : frame D) : frame D :=
  {| f_i := f_i f; f_n := v; f_loops_cnt := f_loops_cnt f;
     f_data := f_data f; f_trace := f_trace f |}.
Definition incr_n (f : frame D) : frame D := set_n (to_int (f_n f + 1)) f.

(** [loops_cnt += k] for an [int] operand [k]; [loops_cnt++] is [add_cnt 1]. *)
Definition add_cnt (k : Z) (f : frame D) : frame D :=
  {| f_i := f_i f; f_n := f_n f; f_loops_cnt := to_u64 (f_loops_cnt f + to_u64 k);
     f_data := f_data f; f_trace := f_trace f |}.

Definition emit (e : event) (f : frame D) : frame D :=
  {| f_i := f_i f; f_n := f_n f; f_loops_cnt := f_loops_cnt f;
     f_data := f_data f; f_trace := e :: f_trace f |}.

Definition with_data (d : D) (f : frame D) : frame D :=
  {| f_i := f_i f; f_n := f_n f; f_loops_cnt := f_loops_cnt f;
     f_data := d; f_trace := f_trace f |}.
End Locals.

Section Bench.
Context {Q : Type} {ops : alf_queue_ops Q}.

(** *** time_bench_for_loop *)

Definition for_loop_trip (rec : time_bench_record) (f : frame (option Q))
  : frame (option Q) + leave (frame (option Q)) :=
  if to_u32 (f_i f) <? loops rec            (* i < rec->loops, unsigned *)
  then inl (incr_i (add_cnt 1 f))
  else inr (LoopEnd f).

Definition time_bench_for_loop (rec : time_bench_record) (data : option Q)
  : option (result Q) :=
  match for_loop (for_loop_trip rec) (emit TimeBenchStart (entry data)) with
  | LoopEnd f =>
      Some {| ret := to_int (f_loops_cnt f);
              queue_after := f_data f;
              trace := TimeBenchStop (f_loops_cnt f) :: f_trace f |}
  | GotoFail _ | Unfinished _ => None
  end.

(** *** Calls into the queue *)

Definition enqueue (objs : list ptr) (k : Z) (f : frame Q) : Z * frame Q :=
  let (r, q') := alf_mp_enqueue (f_data f) objs k in
  (r, emit (MpEnqueue k r) (with_data q' f)).

Definition dequeue (k : Z) (f : frame Q) : Z * frame Q :=
  let (r, q') := alf_mc_dequeue (f_data f) k in
  (r, emit (McDequeue k r) (with_data q' f)).

(** *** time_bench_single_enqueue_dequeue *)

Definition single_trip (rec : time_bench_record) (f : frame Q)
  : frame Q + leave (frame Q) :=
  if to_u32 (f_i f) <? loops rec then
    let (r1, f1) := enqueue [OnStack] 1 f in
    if r1 <? 0 then inr (GotoFail f1) else
    let f2 := add_cnt 1 f1 in
    let (r2, f3) := dequeue 1 f2 in
    if r2 <? 0 then inr (GotoFail f3) else
    inl (incr_i (add_cnt 1 f3))
  else inr (LoopEnd f).

(** [(uint64_t)rec->loops * 2] *)
Definition single_guard (rec : time_bench_record) : Z :=
  to_u64 (to_u64 (loops rec) * to_u64 2).

Definition time_bench_single_enqueue_dequeue
           (rec : time_bench_record) (data : option Q) : option (result Q) :=
  match data with
  | None =>
      Some {| ret := -1; queue_after := None; trace := [PrErr msg_need_queue] |}
  | Some queue =>
      if guard_limit <=? single_guard rec then
        Some {| ret := 0; queue_after := Some queue; trace := [PrErr msg_overflow] |}
      else
        match for_loop (single_trip rec) (emit TimeBenchStart (entry queue)) with
        | LoopEnd f =>
            Some {| ret := to_int (f_loops_cnt f);
                    queue_after := Some (f_data f);
                    trace := TimeBenchStop (f_loops_cnt f) :: f_trace f |}
        | GotoFail f =>
            Some {| ret := 0; queue_after := Some (f_data f); trace := f_trace f |}
        | Unfinished _ => None
        end
  end.

(** *** time_multi_enqueue_dequeue *)

Definition multi_enq_trip (elems : Z) (f : frame Q) : frame Q + leave (frame Q) :=
  if f_n f <? elems then                    (* n < elems, both int *)
    let (r, f1) := enqueue [OnStack] 1 f in
    if r <? 0 then inr (GotoFail f1) else inl (incr_n (add_cnt 1 f1))
  else inr (LoopEnd f).

Definition multi_deq_trip (elems : Z) (f : frame Q) : frame Q + leave (frame Q) :=
  if f_n f <? elems then
    let (r, f1) := dequeue 1 f in
    if r <? 0 then inr (GotoFail f1) else inl (incr_n (add_cnt 1 f1))
  else inr (LoopEnd f).

Definition multi_trip (rec : time_bench_record) (elems : Z) (f : frame Q)
  : frame Q + leave (frame Q) :=
  if to_u32 (f_i f) <? loops rec then
    match for_loop (multi_enq_trip elems) (set_n 0 f) with
    | LoopEnd f1 =>
        match for_loop (multi_deq_trip elems) (set_n 0 f1) with
        | LoopEnd f2 => inl (incr_i f2)
        | GotoFail f2 => inr (GotoFail f2)
        | Unfinished f2 => inr (Unfinished f2)
        end
    | GotoFail f1 => inr (GotoFail f1)
    | Unfinished f1 => inr (Unfinished f1)
    end
  else inr (LoopEnd f).

(** [int elems = rec->step] *)
Definition multi_elems (rec : time_bench_record) : Z := to_int (step rec).

(** [(uint64_t)rec->loops * 2 * elems] *)
Definition multi_guard (rec : time_bench_record) : Z :=
  to_u64 (to_u64 (to_u64 (loops rec) * to_u64 2) * to_u64 (multi_elems rec)).

Definition time_multi_enqueue_dequeue
           (rec : time_bench_record) (data : option Q) : option (result Q) :=
  let elems := multi_elems rec in
  match data with
  | None =>
      Some {| ret := -1; queue_after := None; trace := [PrErr msg_need_queue] |}
  | Some queue =>
      if guard_limit <=? multi_guard rec then
        Some {| ret := 0; queue_after := Some queue; trace := [PrErr msg_overflow] |}
      else
        match for_loop (multi_trip rec elems) (emit TimeBenchStart (entry queue)) with
        | LoopEnd f =>
            Some {| ret := to_int (f_loops_cnt f);
                    queue_after := Some (f_data f);
                    trace := TimeBenchStop (f_loops_cnt f) :: f_trace f |}
        | GotoFail f =>
            Some {| ret := -1; queue_after := Some (f_data f); trace := f_trace f |}
        | Unfinished _ => None
        end
  end.

(** *** time_BULK_enqueue_dequeue *)

(** [objs[i] = (void * )(unsigned long)(i+20)] for [i] from 0 to
    [MAX_BULK - 1]. *)
Definition bulk_objs : list ptr :=
  map (fun k => FakePtr (Z.of_nat k + 20)) (seq 0 (Z.to_nat MAX_BULK)).

(** [int bulk = rec->step] *)
Definition bulk_requested (rec : time_bench_record) : Z := to_int (step rec).

(** The width after [if (bulk > MAX_BULK) bulk = MAX_BULK]. *)
Definition bulk_width (rec : time_bench_record) : Z :=
  if MAX_BULK <? bulk_requested rec then MAX_BULK else bulk_requested rec.

Definition bulk_warning (rec : time_bench_record) : list event :=
  if MAX_BULK <? bulk_requested rec
  then [PrWarn msg_bulk_cap [bulk_requested rec; MAX_BULK]]
  else [].

(** [(uint64_t)rec->loops * bulk * 2], evaluated after the clamp. *)
Definition bulk_guard (rec : time_bench_record) : Z :=
  to_u64 (to_u64 (to_u64 (loops rec) * to_u64 (bulk_width rec)) * to_u64 2).

Definition bulk_trip (rec : time_bench_record) (bulk : Z) (f : frame Q)
  : frame Q + leave (frame Q) :=
  if to_u32 (f_i f) <? loops rec then
    let (r1, f1) := enqueue bulk_objs bulk f in
    if r1 <? 0 then inr (GotoFail f1) else
    let f2 := add_cnt bulk f1 in
    let (r2, f3) := dequeue bulk f2 in
    if r2 <? 0 then inr (GotoFail f3) else
    inl (incr_i (add_cnt bulk f3))
  else inr (LoopEnd f).

Definition time_BULK_enqueue_dequeue
           (rec : time_bench_record) (data : option Q) : option (result Q) :=
  match data with
  | None =>
      Some {| ret := -1; queue_after := None; trace := [PrErr msg_need_alf_queue] |}
  | Some queue =>
      let bulk := bulk_width rec in
      let warned := bulk_warning rec in
      if guard_limit <=? bulk_guard rec then
        Some {| ret := 0; queue_after := Some queue;
                trace := PrErr msg_overflow :: warned |}
      else
        match for_loop (bulk_trip rec bulk)
                       {| f_i := 0; f_n := 0; f_loops_cnt := 0;
                          f_data := queue; f_trace := TimeBenchStart :: warned |} with
        | LoopEnd f =>
            Some {| ret := to_int (f_loops_cnt f);
                    queue_after := Some (f_data f);
                    trace := TimeBenchStop (f_loops_cnt f) :: f_trace f |}
        | GotoFail f =>
            Some {| ret := -1; queue_after := Some (f_data f); trace := f_trace f |}
        | Unfinished _ => None
        end
  end.

(** *** The three workloads, by name *)

Inductive variant : Type := SingleOp | UnbatchedMulti | BulkBatched.

Definition workload (v : variant)
  : time_bench_record -> option Q -> option (result Q) :=
  match v with
  | SingleOp => time_bench_single_enqueue_dequeue
  | UnbatchedMulti => time_multi_enqueue_dequeue
  | BulkBatched => time_BULK_enqueue_dequeue
  end.

(** Queue operations counted per trip of the measured loop. *)
Definition ops_per_iteration (v : variant) (rec : time_bench_record) : Z :=
  match v with
  | SingleOp => 2
  | UnbatchedMulti => 2 * multi_elems rec
  | BulkBatched => 2 * bulk_width rec
  end.

Definition total_ops (v : variant) (rec : time_bench_record) : Z :=
  loops rec * ops_per_iteration v rec.

(** The value each workload compares against [(1ULL<<32)-1]. *)
Definition guard_value (v : variant) (rec : time_bench_record) : Z :=
  match v with
  | SingleOp => single_guard rec
  | UnbatchedMulti => multi_guard rec
  | BulkBatched => bulk_guard rec
  end.

(** What stands behind the [fail:] label. *)
Definition fail_code (v : variant) : Z :=
  match v with SingleOp => 0 | UnbatchedMulti | BulkBatched => -1 end.

(** What a workload logs before it reaches the overflow guard. *)
Definition preamble (v : variant) (rec : time_bench_record) : list event :=
  match v with BulkBatched => bulk_warning rec | _ => [] end.

Definition msg_null (v : variant) : string :=
  match v with BulkBatched => msg_need_alf_queue | _ => msg_need_queue end.

(** *** run_benchmark_tests and module init *)

(** Modelled from the spec: [time_bench_loop] is defined in
    [lib/time_bench.c], not in this file.  It fills a record with the loop
    count (a [uint32_t] parameter) and the step, invokes the workload on it
    with the context pointer and reports a labelled result.  Its own return
    value is not used by the driver. *)
Definition time_bench_loop (loops_arg step_arg : Z) (txt : string)
           (data : option Q)
           (func : time_bench_record -> option Q -> option (result Q))
  : option (option Q * list event) :=
  match func {| loops := to_u32 loops_arg; step := step_arg |} data with
  | Some r => Some (queue_after r, BenchLoop txt (ret r) :: trace r)
  | None => None
  end.

(** One more [time_bench_loop] call on the queue, after the calls so far. *)
Definition then_bench (sofar : option Q * list event)
           (loops_arg step_arg : Z) (txt : string)
           (func : time_bench_record -> option Q -> option (result Q))
  : option (option Q * list event) :=
  match time_bench_loop loops_arg step_arg txt (fst sofar) func with
  | Some (MPMC', tr') => Some (MPMC', tr' ++ snd sofar)
  | None => None
  end.

Definition and_then {A B : Type} (x : option A) (k : A -> option B) : option B :=
  match x with
  | Some a => k a
  | None => None
  end.

Local Notation "x <- c ;; k" := (and_then c (fun x => k))
  (at level 61, c at next level, right associativity).

Definition run_benchmark_tests : option (result Q) :=
  let loops : Z := 10000000 in              (* uint32_t *)
  let ring_size : Z := 512 in
  let passed_count : Z := 0 in
  s <- time_bench_loop (to_u32 (loops * 1000)) 0 "for_loop" None
                       time_bench_for_loop ;;
  let MPMC := alf_queue_alloc ring_size in
  let s := (MPMC, QueueAlloc ring_size (match MPMC with Some _ => true | None => false end)
          :: snd s) in
  s <- then_bench s loops 0 "ALF-simple" time_bench_single_enqueue_dequeue ;;
  s <- then_bench s (loops / 100) 128 "ALF-multi" time_multi_enqueue_dequeue ;;
  s <- then_bench s loops 2 "ALF-bulk2" time_BULK_enqueue_dequeue ;;
  s <- then_bench s loops 4 "ALF-bulk4" time_BULK_enqueue_dequeue ;;
  s <- then_bench s loops 6 "ALF-bulk6" time_BULK_enqueue_dequeue ;;
  s <- then_bench s loops 8 "ALF-bulk8" time_BULK_enqueue_dequeue ;;
  s <- then_bench s loops 16 "ALF-bulk16" time_BULK_enqueue_dequeue ;;
  Some {| ret := passed_count; queue_after := None; trace := QueueFree :: snd s |}.

(** [static int verbose=1;] *)
Definition verbose : Z := 1.

Definition alf_queue_bench_module_init : option (result Q) :=
  let loaded := if verbose =? 0 then [] else [PrInfo "Loaded"] in
  r <- run_benchmark_tests ;;
  Some {| ret := if ret r <? 0 then - ECANCELED else 0;
          queue_after := queue_after r;
          trace := trace r ++ loaded |}.

End Bench.

(** ** Queues to run the benchmark on *)

(** Modelled from the spec: the queue itself ([linux/alf_queue.h]) is not part
    of this file.  A bounded ring of fixed capacity: an enqueue of [n]
    pointers is refused as a whole when fewer than [n] slots are free, a
    dequeue hands out up to [n] pointers and returns how many. *)
Module Ring.

Record ring : Type := { capacity : Z; items : list ptr }.

Definition ENOBUFS : Z := 105.

Definition used (q : ring) : Z := Z.of_nat (List.length (items q)).

Definition ring_alloc (size : Z) : option ring :=
  if 0 <? size then Some {| capacity := size; items := [] |} else None.

Definition ring_enqueue (q : ring) (objs : list ptr) (n : Z) : Z * ring :=
  if capacity q - used q <? n then (- ENOBUFS, q)
  else (n, {| capacity := capacity q;
              items := items q ++ firstn (Z.to_nat n) objs |}).

Definition ring_dequeue (q : ring) (n : Z) : Z * ring :=
  let k := Z.min (used q) n in
  (k, {| capacity := capacity q; items := skipn (Z.to_nat k) (items q) |}).

#[global] Instance ring_ops : alf_queue_ops ring :=
  {| alf_queue_alloc := ring_alloc;
     alf_mp_enqueue := ring_enqueue;
     alf_mc_dequeue := ring_dequeue |}.

Definition empty (size : Z) : ring := {| capacity := size; items := [] |}.

End Ring.

(** A queue for simulated runs: it only counts the calls made on it, and
    reports failure on the calls a schedule names.  [alloc_ok] says whether
    allocation succeeds. *)
Module Sim.

Record calls : Type := { enq_calls : Z; deq_calls : Z }.

Definition fresh : calls := {| enq_calls := 0; deq_calls := 0 |}.

Definition never (k : Z) : bool := false.
Definition at_call (j : Z) (k : Z) : bool := k =? j.

Section Schedule.
Variable alloc_ok : bool.
Variables fail_enq fail_deq : Z -> bool.

Definition sim_alloc (size : Z) : option calls :=
  if alloc_ok then Some fresh else None.

Definition sim_enqueue (q : calls) (objs : list ptr) (n : Z) : Z * calls :=
  let k := enq_calls q + 1 in
  (if fail_enq k then -1 else Z.abs n,
   {| enq_calls := k; deq_calls := deq_calls q |}).

Definition sim_dequeue (q : calls) (n : Z) : Z * calls :=
  let k := deq_calls q + 1 in
  (if fail_deq k then -1 else Z.abs n,
   {| enq_calls := enq_calls q; deq_calls := k |}).

Definition sim_ops : alf_queue_ops calls :=
  {| alf_queue_alloc := sim_alloc;
     alf_mp_enqueue := sim_enqueue;
     alf_mc_dequeue := sim_dequeue |}.
End Schedule.

(** No simulated failure at all. *)
Definition reliable : alf_queue_ops calls := sim_ops true never never.

(** Allocation fails. *)
Definition no_memory : alf_queue_ops calls := sim_ops false never never.

End Sim.

(** ** Vocabulary for the outcome of a run *)

Section Vocabulary.
Context {Q : Type} {ops : alf_queue_ops Q}.

(** A recorded call for [w] pointers that the queue really answered, with
    success ... *)
Definition ok_call (w : Z) (e : event) : Prop :=
  match e with
  | MpEnqueue n r =>
      n = w /\ 0 <= r /\ exists q objs, r = fst (alf_mp_enqueue q objs n)
  | McDequeue n r =>
      n = w /\ 0 <= r /\ exists q, r = fst (alf_mc_dequeue q n)
  | _ => False
  end.

(** ... or with a failure code. *)
Definition bad_call (w : Z) (e : event) : Prop :=
  match e with
  | MpEnqueue n r =>
      n = w /\ r < 0 /\ exists q objs, r = fst (alf_mp_enqueue q objs n)
  | McDequeue n r =>
      n = w /\ r < 0 /\ exists q, r = fst (alf_mc_dequeue q n)
  | _ => False
  end.

(** The trace of a measured loop in which every call so far succeeded:
    what was logged before the timer ([pre]), the start of the timer, then
    queue calls only. *)
Definition ok_trace (w : Z) (pre tr : list event) : Prop :=
  exists calls, Forall (ok_call w) calls /\ tr = calls ++ TimeBenchStart :: pre.

(** The same trace, cut short by a failed call. *)
Definition bad_trace (w : Z) (pre tr : list event) : Prop :=
  exists e calls,
    bad_call w e /\ Forall (ok_call w) calls /\
    tr = e :: calls ++ TimeBenchStart :: pre.

(** The run went through: [total] operations were handed to
    [time_bench_stop] and returned through [int]. *)
Definition completes (w : Z) (pre : list event) (total : Z) (r : result Q) : Prop :=
  ret r = to_int total /\
  exists tr, trace r = TimeBenchStop total :: tr /\ ok_trace w pre tr.

(** The run took the [fail:] exit right after a failed call. *)
Definition aborts (w : Z) (pre : list event) (code : Z) (r : result Q) : Prop :=
  ret r = code /\ bad_trace w pre (trace r).

Definition pair_trip (rec : time_bench_record) (objs : list ptr) (k : Z)
           (f : frame Q) : frame Q + leave (frame Q) :=
  if to_u32 (f_i f) <? loops rec then
    let (r1, f1) := enqueue objs k f in
    if r1 <? 0 then inr (GotoFail f1) else
    let f2 := add_cnt k f1 in
    let (r2, f3) := dequeue k f2 in
    if r2 <? 0 then inr (GotoFail f3) else
    inl (incr_i (add_cnt k f3))
  else inr (LoopEnd f).

Definition loop_post (w : Z) (pre : list event) (total : Z) (l : leave (frame Q)) : Prop :=
  match l with
  | LoopEnd f => f_loops_cnt f = total /\ ok_trace w pre (f_trace f)
  | GotoFail f => bad_trace w pre (f_trace f)
  | Unfinished _ => False
  end.

(** A call into the queue, as the measured loops see it. *)
Definition queue_call (w : Z) (call : frame Q -> Z * frame Q) : Prop :=
  forall f, exists r q' e,
    call f = (r, emit e (with_data q' f)) /\
    (r < 0 -> bad_call w e) /\ (0 <= r -> ok_call w e).

Definition count_trip (call : frame Q -> Z * frame Q) (elems : Z) (f : frame Q)
  : frame Q + leave (frame Q) :=
  if f_n f <? elems then
    let (r, f1) := call f in
    if r <? 0 then inr (GotoFail f1) else inl (incr_n (add_cnt 1 f1))
  else inr (LoopEnd f).

Definition count_post (w : Z) (pre : list event) (f0 : frame Q) (elems : Z)
           (l : leave (frame Q)) : Prop :=
  match l with
  | LoopEnd f =>
      f_i f = f_i f0 /\ f_loops_cnt f = f_loops_cnt f0 + elems /\
      ok_trace w pre (f_trace f)
  | GotoFail f => bad_trace w pre (f_trace f)
  | Unfinished _ => False
  end.

(** The number of pointers each queue call of a workload asks for. *)
Definition call_width (v : variant) (rec : time_bench_record) : Z :=
  match v with BulkBatched => bulk_width rec | _ => 1 end.

Definition never_fails : Prop :=
  (forall q objs n, 0 <= fst (alf_mp_enqueue q objs n)) /\
  (forall q n, 0 <= fst (alf_mc_dequeue q n)).

(** The frame of the calibrator after [c] trips. *)
Definition calib_frame (data : option Q) (c : Z) : frame (option Q) :=
  {| f_i := to_int c; f_n := 0; f_loops_cnt := c; f_data := data;
     f_trace := [TimeBenchStart] |}.

(** The calls of a run whose queue allocation failed, most recent first. *)
Definition trace_without_queue : list event :=
  [QueueFree;
   BenchLoop "ALF-bulk16" (-1); PrErr msg_need_alf_queue;
   BenchLoop "ALF-bulk8" (-1); PrErr msg_need_alf_queue;
   BenchLoop "ALF-bulk6" (-1); PrErr msg_need_alf_queue;
   BenchLoop "ALF-bulk4" (-1); PrErr msg_need_alf_queue;
   BenchLoop "ALF-bulk2" (-1); PrErr msg_need_alf_queue;
   BenchLoop "ALF-multi" (-1); PrErr msg_need_queue;
   BenchLoop "ALF-simple" (-1); PrErr msg_need_queue;
   QueueAlloc 512 false;
   BenchLoop "for_loop" 1410065408;
   TimeBenchStop 1410065408; TimeBenchStart].

End Vocabulary.

(** ** Vocabulary for call sequences and for the driver's steps *)

(** [alf_queue_bench_module_exit]: nothing but the log line. *)
Definition alf_queue_bench_module_exit : list event :=
  if verbose =? 0 then [] else [PrInfo "Unloaded"].

(** A queue call without its return code. *)
Inductive call : Type :=
| Enq (n : Z)
| Deq (n : Z).

Definition call_of (e : event) : list call :=
  match e with
  | MpEnqueue n _ => [Enq n]
  | McDequeue n _ => [Deq n]
  | _ => []
  end.

(** The queue calls of a trace, in the order they were made. *)
Definition calls_made (tr : list event) : list call := rev (flat_map call_of tr).

(** [n] rounds of the same calls. *)
Definition rounds (round : list call) (n : nat) : list call :=
  List.concat (repeat round n).

(** The queue calls of one trip of the measured loop. *)
Definition round_of (v : variant) (rec : time_bench_record) : list call :=
  match v with
  | SingleOp => [Enq 1; Deq 1]
  | UnbatchedMulti =>
      repeat (Enq 1) (Z.to_nat (multi_elems rec))
      ++ repeat (Deq 1) (Z.to_nat (multi_elems rec))
  | BulkBatched => [Enq (bulk_width rec); Deq (bulk_width rec)]
  end.

(** What the driver does, seen from outside: run a labelled benchmark,
    allocate the queue, free it. *)
Inductive driver_step : Type :=
| Ran (txt : string)
| Allocated (size : Z)
| Freed.

Definition step_of (e : event) : list driver_step :=
  match e with
  | BenchLoop txt _ => [Ran txt]
  | QueueAlloc size _ => [Allocated size]
  | QueueFree => [Freed]
  | _ => []
  end.

(** The steps of a trace, in the order they were taken. *)
Definition driver_steps (tr : list event) : list driver_step := rev (flat_map step_of tr).

Definition result_of (e : event) : list (string * Z) :=
  match e with
  | BenchLoop txt r => [(txt, r)]
  | _ => []
  end.

(** Label and return value of each benchmark, in the order they ran. *)
Definition bench_results (tr : list event) : list (string * Z) :=
  rev (flat_map result_of tr).

Definition is_diagnostic (e : event) : bool :=
  match e with PrErr _ | PrWarn _ _ => true | _ => false end.

(** The errors and warnings of a trace. *)
Definition diagnostics (tr : list event) : list event := filter is_diagnostic tr.

(** Every queue call of the trace asked for between 0 and [MAX_BULK]
    pointers, the size of the arrays [objs] and [deq_objs]. *)
Definition calls_within_buffer (tr : list event) : Prop :=
  Forall (fun e => forall n, width_of e = Some n -> 0 <= n <= MAX_BULK) tr.

(** How a measured loop leaves its calls behind: all the rounds, or some full
    rounds followed by the part of a round that ends in the failed call. *)
Definition calls_post {Q : Type} (round : list call) (total : Z)
           (l : leave (frame Q)) : Prop :=
  match l with
  | LoopEnd f => calls_made (f_trace f) = rounds round (Z.to_nat total)
  | GotoFail f =>
      exists n tail rest,
        Z.of_nat n < total /\
        calls_made (f_trace f) = rounds round n ++ tail /\
        round = tail ++ rest /\ tail <> []
  | Unfinished _ => False
  end.

(** The queue calls of a run, by rounds: all [total] rounds when no call
    failed, else fewer full rounds followed by the part of a round that ends
    in the failed call. *)
Definition calls_in_rounds (round : list call) (total : Z) (tr : list event) : Prop :=
  if any_failure tr then
    exists n tail rest,
      Z.of_nat n < total /\
      calls_made tr = rounds round n ++ tail /\
      round = tail ++ rest /\ tail <> []
  else calls_made tr = rounds round (Z.to_nat total).

(** ** Facts about machine integers *)

Module CIntFacts.

Lemma guard_limit_val : guard_limit = two32 - 1.
Proof. reflexivity. Qed.

Lemma to_u64_small z : 0 <= z < two64 -> to_u64 z = z.
Proof. intros H. unfold to_u64. apply Z.mod_small. exact H. Qed.

Lemma to_u32_small z : 0 <= z < two32 -> to_u32 z = z.
Proof. intros H. unfold to_u32. apply Z.mod_small. exact H. Qed.

Lemma to_u32_range z : 0 <= to_u32 z < two32.
Proof. unfold to_u32. apply Z.mod_pos_bound. reflexivity. Qed.

Lemma to_int_small z : - two31 <= z < two31 -> to_int z = z.
Proof.
  intros H. unfold to_int.
  destruct (Z_lt_le_dec z 0) as [Hneg | Hpos].
  - assert (E : z mod two32 = z + two32).
    { symmetry. apply Z.mod_unique with (q := -1); unfold two32, two31 in *; lia. }
    rewrite E. destruct (Z.ltb_spec (z + two32) two31); unfold two32, two31 in *; lia.
  - rewrite Z.mod_small by (unfold two32, two31 in *; lia).
    destruct (Z.ltb_spec z two31); lia.
Qed.

Lemma to_int_range z : - two31 <= to_int z < two31.
Proof.
  unfold to_int. pose proof (to_u32_range z) as H. unfold to_u32 in H.
  destruct (Z.ltb_spec (z mod two32) two31); unfold two32, two31 in *; lia.
Qed.

(** A count that no longer fits an [int] comes back negative. *)
Lemma to_int_high z : two31 <= z < two32 -> to_int z = z - two32.
Proof.
  intros H. unfold to_int. rewrite Z.mod_small by (unfold two32, two31 in *; lia).
  destruct (Z.ltb_spec z two31); lia.
Qed.

Lemma to_u32_to_int z : to_u32 (to_int z) = to_u32 z.
Proof.
  unfold to_int, to_u32.
  destruct (Z.ltb_spec (z mod two32) two31).
  - apply Z.mod_mod. discriminate.
  - replace (z mod two32 - two32) with (z mod two32 + (-1) * two32) by ring.
    rewrite Z.mod_add by discriminate. apply Z.mod_mod. discriminate.
Qed.

(** [i++] on an [int] whose unsigned reading is below [2^32 - 1] advances
    that reading by one, also across [INT_MAX]. *)
Lemma to_u32_incr i : to_u32 i < two32 - 1 -> to_u32 (to_int (i + 1)) = to_u32 i + 1.
Proof.
  intros H. rewrite to_u32_to_int. unfold to_u32 in *.
  rewrite Z.add_mod by discriminate.
  pose proof (Z.mod_pos_bound i two32 eq_refl) as B.
  rewrite (Z.mod_small 1) by (unfold two32; lia).
  apply Z.mod_small. lia.
Qed.

Lemma to_int_congr a b : to_u32 a = to_u32 b -> to_int a = to_int b.
Proof. unfold to_u32, to_int. intros E. rewrite E. reflexivity. Qed.

Lemma to_int_incr z : to_int (to_int z + 1) = to_int (z + 1).
Proof.
  apply to_int_congr. unfold to_u32. rewrite Z.add_mod by discriminate.
  fold (to_u32 (to_int z)). rewrite to_u32_to_int. unfold to_u32.
  rewrite <- Z.add_mod by discriminate. reflexivity.
Qed.

End CIntFacts.
Import CIntFacts.

(** ** Facts about bounded iteration *)

Section IterateFacts.
Context {St Res : Type}.
Variable trip : St -> St + Res.

Lemma iter_nat_add n m s :
  iter_nat trip (n + m) s =
  match iter_nat trip n s with
  | inl s' => iter_nat trip m s'
  | inr r => inr r
  end.
Proof.
  revert s. induction n as [| n IH]; intros s; simpl.
  - reflexivity.
  - destruct (trip s) as [s' | r]; [apply IH | reflexivity].
Qed.

Lemma iter_pos_nat p s : iter_pos trip p s = iter_nat trip (Pos.to_nat p) s.
Proof.
  revert s. induction p as [p IH | p IH |]; intros s.
  - rewrite Pos2Nat.inj_xI. simpl iter_pos.
    change (S (2 * Pos.to_nat p)) with (1 + 2 * Pos.to_nat p)%nat.
    replace (1 + 2 * Pos.to_nat p)%nat with (1 + (Pos.to_nat p + Pos.to_nat p))%nat by lia.
    simpl iter_nat at 1. destruct (trip s) as [s1 | r]; [| reflexivity].
    rewrite iter_nat_add, <- IH.
    destruct (iter_pos trip p s1) as [s2 | r]; [apply IH | reflexivity].
  - rewrite Pos2Nat.inj_xO. simpl iter_pos.
    replace (2 * Pos.to_nat p)%nat with (Pos.to_nat p + Pos.to_nat p)%nat by lia.
    rewrite iter_nat_add, <- IH.
    destruct (iter_pos trip p s) as [s' | r]; [apply IH | reflexivity].
  - simpl. destruct (trip s); reflexivity.
Qed.

(** Invariant rule: [measure] bounds the trips still to come. *)
Lemma iter_nat_rule (Inv : St -> Prop) (measure : St -> Z) (Post : Res -> Prop) :
  (forall s, Inv s ->
     match trip s with
     | inl s' => Inv s' /\ 0 <= measure s' < measure s
     | inr r => Post r
     end) ->
  forall n s, Inv s -> 0 <= measure s < Z.of_nat n ->
    exists r, iter_nat trip n s = inr r /\ Post r.
Proof.
  intros Hstep. induction n as [| n IH]; intros s Hinv Hm.
  - lia.
  - simpl. specialize (Hstep s Hinv). destruct (trip s) as [s' | r].
    + destruct Hstep as [Hinv' Hdec]. apply IH; [exact Hinv' | lia].
    + exists r. split; [reflexivity | exact Hstep].
Qed.

End IterateFacts.

(** The rule for [for_loop]: an invariant, and a measure below [2^32] that
    every trip decreases. *)
Lemma for_loop_rule {St : Type} (trip : St -> St + leave St)
      (Inv : St -> Prop) (measure : St -> Z) (Post : leave St -> Prop) :
  (forall s, Inv s ->
     match trip s with
     | inl s' => Inv s' /\ 0 <= measure s' < measure s
     | inr l => Post l
     end) ->
  forall s, Inv s -> 0 <= measure s < two32 -> Post (for_loop trip s).
Proof.
  intros Hstep s Hinv Hm. unfold for_loop. rewrite iter_pos_nat.
  destruct (iter_nat_rule trip Inv measure Post Hstep (Pos.to_nat max_trips) s Hinv)
    as [l [E HP]].
  - rewrite positive_nat_Z. exact Hm.
  - rewrite E. exact HP.
Qed.

(** ** The calibrator *)

Section Calibrator.
Context {Q : Type}.

Lemma for_loop_trip_next rec (data : option Q) c :
  wf_record rec -> 0 <= c < loops rec ->
  for_loop_trip rec (calib_frame data c) = inl (calib_frame data (c + 1)).
Proof.
  intros [Hlo Hhi] Hc. unfold for_loop_trip, calib_frame; simpl f_i.
  rewrite to_u32_to_int, to_u32_small by lia.
  destruct (Z.ltb_spec c (loops rec)) as [_ | Hge]; [| lia].
  unfold incr_i, add_cnt; simpl.
  rewrite to_int_incr. change (to_u64 1) with 1.
  rewrite to_u64_small by (unfold two32, two64 in *; lia).
  reflexivity.
Qed.

Lemma for_loop_trip_last rec (data : option Q) :
  wf_record rec ->
  for_loop_trip rec (calib_frame data (loops rec))
  = inr (LoopEnd (calib_frame data (loops rec))).
Proof.
  intros Hwf. unfold for_loop_trip, calib_frame; simpl f_i.
  rewrite to_u32_to_int, to_u32_small by exact Hwf.
  rewrite Z.ltb_irrefl. reflexivity.
Qed.

(** The empty loop makes exactly [rec->loops] trips, for every 32-bit
    count. *)
Lemma for_loop_trip_run rec (data : option Q) :
  wf_record rec ->
  for_loop (for_loop_trip rec) (emit TimeBenchStart (entry data))
  = LoopEnd (calib_frame data (loops rec)).
Proof.
  intros Hwf.
  apply (for_loop_rule (for_loop_trip rec)
           (fun f => exists c, 0 <= c <= loops rec /\ f = calib_frame data c)
           (fun f => loops rec - f_loops_cnt f)
           (fun l => l = LoopEnd (calib_frame data (loops rec)))).
  - intros f [c [Hc ->]].
    destruct (Z.eq_dec c (loops rec)) as [-> | Hne].
    + rewrite for_loop_trip_last by exact Hwf. reflexivity.
    + rewrite for_loop_trip_next by (try exact Hwf; lia).
      split; [exists (c + 1); split; [lia | reflexivity] | simpl; lia].
  - exists 0. split; [destruct Hwf; lia | reflexivity].
  - simpl. destruct Hwf. lia.
Qed.

Lemma time_bench_for_loop_run rec (data : option Q) :
  wf_record rec ->
  time_bench_for_loop rec data
  = Some {| ret := to_int (loops rec);
            queue_after := data;
            trace := [TimeBenchStop (loops rec); TimeBenchStart] |}.
Proof.
  intros Hwf. unfold time_bench_for_loop.
  rewrite for_loop_trip_run by exact Hwf. reflexivity.
Qed.

End Calibrator.

(** ** How a measured run can end *)

Section Outcomes.
Context {Q : Type} {ops : alf_queue_ops Q}.

Lemma ok_trace_start w pre : ok_trace w pre (TimeBenchStart :: pre).
Proof. exists []. split; [constructor | reflexivity]. Qed.

Lemma ok_trace_cons w pre e tr :
  ok_call w e -> ok_trace w pre tr -> ok_trace w pre (e :: tr).
Proof.
  intros He [calls [Hc ->]]. exists (e :: calls).
  split; [constructor; assumption | reflexivity].
Qed.

Lemma bad_trace_cons w pre e tr :
  bad_call w e -> ok_trace w pre tr -> bad_trace w pre (e :: tr).
Proof.
  intros He [calls [Hc ->]]. exists e, calls. repeat split; assumption.
Qed.

Lemma enqueue_eq objs k (f : frame Q) :
  exists r q',
    enqueue objs k f = (r, emit (MpEnqueue k r) (with_data q' f)) /\
    (r < 0 -> bad_call k (MpEnqueue k r)) /\
    (0 <= r -> ok_call k (MpEnqueue k r)).
Proof.
  unfold enqueue.
  destruct (alf_mp_enqueue (f_data f) objs k) as [r q'] eqn:E.
  exists r, q'. split; [reflexivity |].
  assert (G : exists q objs', r = fst (alf_mp_enqueue q objs' k)).
  { exists (f_data f), objs. rewrite E. reflexivity. }
  split; intros H; simpl; repeat split; assumption.
Qed.

Lemma dequeue_eq k (f : frame Q) :
  exists r q',
    dequeue k f = (r, emit (McDequeue k r) (with_data q' f)) /\
    (r < 0 -> bad_call k (McDequeue k r)) /\
    (0 <= r -> ok_call k (McDequeue k r)).
Proof.
  unfold dequeue.
  destruct (alf_mc_dequeue (f_data f) k) as [r q'] eqn:E.
  exists r, q'. split; [reflexivity |].
  assert (G : exists q, r = fst (alf_mc_dequeue q k)).
  { exists (f_data f). rewrite E. reflexivity. }
  split; intros H; simpl; repeat split; assumption.
Qed.

(** *** Loops that pair one enqueue with one dequeue

    The measured loops of the Single-Op and of the Bulk-Batched workload
    are the same loop, at widths [1] and [bulk]. *)

Lemma single_trip_pair rec : single_trip rec = pair_trip rec [OnStack] 1.
Proof. reflexivity. Qed.

Lemma bulk_trip_pair rec bulk : bulk_trip rec bulk = pair_trip rec bulk_objs bulk.
Proof. reflexivity. Qed.

Lemma pair_loop rec objs k pre (f0 : frame Q) :
  wf_record rec -> 0 <= k -> 2 * k * loops rec < two64 ->
  f_i f0 = 0 -> f_loops_cnt f0 = 0 -> ok_trace k pre (f_trace f0) ->
  loop_post k pre (2 * k * loops rec) (for_loop (pair_trip rec objs k) f0).
Proof.
  intros [Hlo Hhi] Hk Htot Hi0 Hc0 Htr0.
  apply (for_loop_rule (pair_trip rec objs k)
           (fun f => 0 <= to_u32 (f_i f) <= loops rec /\
                     f_loops_cnt f = 2 * k * to_u32 (f_i f) /\
                     ok_trace k pre (f_trace f))
           (fun f => loops rec - to_u32 (f_i f))).
  - intros f (Hi & Hc & Htr). unfold pair_trip.
    destruct (Z.ltb_spec (to_u32 (f_i f)) (loops rec)) as [Hlt | Hge].
    + destruct (enqueue_eq objs k f) as (r1 & q1 & E1 & Hbad1 & Hok1). rewrite E1.
      destruct (Z.ltb_spec r1 0) as [Hr1 | Hr1].
      { simpl. apply bad_trace_cons; auto. }
      destruct (dequeue_eq k (add_cnt k (emit (MpEnqueue k r1) (with_data q1 f))))
        as (r2 & q2 & E2 & Hbad2 & Hok2). rewrite E2.
      destruct (Z.ltb_spec r2 0) as [Hr2 | Hr2].
      { simpl. apply bad_trace_cons; [auto |]. apply ok_trace_cons; auto. }
      assert (Hu : to_u32 (to_int (f_i f + 1)) = to_u32 (f_i f) + 1)
        by (apply to_u32_incr; lia).
      assert (Hbound : 2 * k * (to_u32 (f_i f) + 1) <= 2 * k * loops rec)
        by (apply Z.mul_le_mono_nonneg_l; lia).
      simpl f_i. rewrite Hu. repeat split; try lia.
      * unfold incr_i; simpl f_loops_cnt.
        assert (Hnn : 0 <= 2 * k * to_u32 (f_i f))
          by (apply Z.mul_nonneg_nonneg; lia).
        rewrite (to_u64_small k) by lia.
        rewrite (to_u64_small (f_loops_cnt f + k)) by lia.
        rewrite to_u64_small by lia. lia.
      * simpl. apply ok_trace_cons; [auto |]. apply ok_trace_cons; auto.
    + simpl. split; [| exact Htr]. rewrite Hc. f_equal. lia.
  - rewrite Hi0, Hc0. change (to_u32 0) with 0. repeat split; try lia. exact Htr0.
  - rewrite Hi0. change (to_u32 0) with 0. lia.
Qed.

(** *** The inner loops of the Unbatched-Multi workload *)

Lemma enqueue_call objs k : queue_call k (enqueue objs k).
Proof.
  intros f. destruct (enqueue_eq objs k f) as (r & q' & E & Hbad & Hok).
  exists r, q', (MpEnqueue k r). auto.
Qed.

Lemma dequeue_call k : queue_call k (dequeue k).
Proof.
  intros f. destruct (dequeue_eq k f) as (r & q' & E & Hbad & Hok).
  exists r, q', (McDequeue k r). auto.
Qed.

Lemma multi_enq_trip_count elems :
  multi_enq_trip elems = count_trip (enqueue [OnStack] 1) elems.
Proof. reflexivity. Qed.

Lemma multi_deq_trip_count elems :
  multi_deq_trip elems = count_trip (dequeue 1) elems.
Proof. reflexivity. Qed.

Lemma count_loop w call elems pre (f0 : frame Q) :
  queue_call w call ->
  0 <= elems < two31 -> f_n f0 = 0 ->
  0 <= f_loops_cnt f0 -> f_loops_cnt f0 + elems < two64 ->
  ok_trace w pre (f_trace f0) ->
  count_post w pre f0 elems (for_loop (count_trip call elems) f0).
Proof.
  intros Hcall He Hn0 Hc0 Hb Htr0.
  apply (for_loop_rule (count_trip call elems)
           (fun f => f_i f = f_i f0 /\ 0 <= f_n f <= elems /\
                     f_loops_cnt f = f_loops_cnt f0 + f_n f /\
                     ok_trace w pre (f_trace f))
           (fun f => elems - f_n f)).
  - intros f (Hi & Hn & Hc & Htr). unfold count_trip.
    destruct (Z.ltb_spec (f_n f) elems) as [Hlt | Hge].
    + destruct (Hcall f) as (r & q' & e & E & Hbad & Hok). rewrite E.
      destruct (Z.ltb_spec r 0) as [Hr | Hr].
      { simpl. apply bad_trace_cons; auto. }
      assert (Hn' : to_int (f_n f + 1) = f_n f + 1)
        by (apply to_int_small; unfold two31 in *; lia).
      simpl. rewrite Hn'. change (to_u64 1) with 1.
      rewrite to_u64_small by lia.
      repeat split; try lia; try assumption.
      apply ok_trace_cons; auto.
    + simpl. repeat split; try assumption. lia.
  - rewrite Hn0. repeat split; try lia. exact Htr0.
  - rewrite Hn0. unfold two31, two32 in *. lia.
Qed.

Lemma multi_loop rec elems pre (f0 : frame Q) :
  wf_record rec -> 0 <= elems < two31 -> 2 * elems * loops rec < two64 ->
  f_i f0 = 0 -> f_loops_cnt f0 = 0 -> ok_trace 1 pre (f_trace f0) ->
  loop_post 1 pre (2 * elems * loops rec) (for_loop (multi_trip rec elems) f0).
Proof.
  intros [Hlo Hhi] He Htot Hi0 Hc0 Htr0.
  apply (for_loop_rule (multi_trip rec elems)
           (fun f => 0 <= to_u32 (f_i f) <= loops rec /\
                     f_loops_cnt f = 2 * elems * to_u32 (f_i f) /\
                     ok_trace 1 pre (f_trace f))
           (fun f => loops rec - to_u32 (f_i f))).
  - intros f (Hi & Hc & Htr). unfold multi_trip.
    destruct (Z.ltb_spec (to_u32 (f_i f)) (loops rec)) as [Hlt | Hge].
    + assert (Hnn : 0 <= 2 * elems * to_u32 (f_i f))
        by (apply Z.mul_nonneg_nonneg; lia).
      assert (Hbound : 2 * elems * (to_u32 (f_i f) + 1) <= 2 * elems * loops rec)
        by (apply Z.mul_le_mono_nonneg_l; lia).
      rewrite multi_enq_trip_count, multi_deq_trip_count.
      pose proof (count_loop 1 (enqueue [OnStack] 1) elems pre (set_n 0 f)
                    (enqueue_call _ _) He eq_refl) as H1.
      simpl f_loops_cnt in H1. simpl f_trace in H1. simpl f_i in H1.
      specialize (H1 ltac:(lia) ltac:(lia) Htr).
      destruct (for_loop (count_trip (enqueue [OnStack] 1) elems) (set_n 0 f))
        as [f1 | f1 | f1]; simpl in H1; [| exact H1 | contradiction].
      destruct H1 as (Hi1 & Hc1 & Htr1).
      pose proof (count_loop 1 (dequeue 1) elems pre (set_n 0 f1)
                    (dequeue_call _) He eq_refl) as H2.
      simpl f_loops_cnt in H2. simpl f_trace in H2. simpl f_i in H2.
      specialize (H2 ltac:(lia) ltac:(lia) Htr1).
      destruct (for_loop (count_trip (dequeue 1) elems) (set_n 0 f1))
        as [f2 | f2 | f2]; simpl in H2; [| exact H2 | contradiction].
      destruct H2 as (Hi2 & Hc2 & Htr2).
      assert (Hu : to_u32 (to_int (f_i f2 + 1)) = to_u32 (f_i f) + 1)
        by (rewrite Hi2, Hi1; apply to_u32_incr; lia).
      simpl f_i. rewrite Hu. simpl f_loops_cnt. simpl f_trace.
      repeat split; try lia. exact Htr2.
    + simpl. split; [| exact Htr]. rewrite Hc. f_equal. lia.
  - rewrite Hi0, Hc0. change (to_u32 0) with 0. repeat split; try lia. exact Htr0.
  - rewrite Hi0. change (to_u32 0) with 0. lia.
Qed.

(** *** The overflow guard *)

Lemma bulk_width_min rec : bulk_width rec = Z.min (bulk_requested rec) MAX_BULK.
Proof.
  unfold bulk_width. destruct (Z.ltb_spec MAX_BULK (bulk_requested rec)); lia.
Qed.

(** For a 32-bit loop count and a non-negative width the 64-bit product of
    the guard does not wrap: the guard compares the true operation count. *)
Lemma guard_value_exact v rec :
  wf_record rec -> 0 <= ops_per_iteration v rec ->
  guard_value v rec = total_ops v rec.
Proof.
  intros [Hlo Hhi] Hops. unfold total_ops.
  destruct v; unfold guard_value, ops_per_iteration in *.
  - unfold single_guard. change (to_u64 2) with 2.
    rewrite (to_u64_small (loops rec)) by (unfold two32, two64 in *; lia).
    apply to_u64_small. unfold two32, two64 in *. lia.
  - unfold multi_guard. change (to_u64 2) with 2.
    pose proof (to_int_range (step rec)) as Hr. fold (multi_elems rec) in Hr.
    assert (He : 0 <= multi_elems rec) by lia.
    assert (Hb : loops rec * 2 * multi_elems rec <= (two32 - 1) * 2 * (two31 - 1)).
    { apply Z.mul_le_mono_nonneg; lia. }
    assert (Hn : 0 <= loops rec * 2 * multi_elems rec)
      by (apply Z.mul_nonneg_nonneg; lia).
    rewrite (to_u64_small (loops rec)) by (unfold two32, two64 in *; lia).
    rewrite (to_u64_small (loops rec * 2)) by (unfold two32, two64 in *; lia).
    rewrite (to_u64_small (multi_elems rec)) by (unfold two31, two64 in *; lia).
    rewrite to_u64_small by (unfold two31, two32, two64 in *; lia).
    ring.
  - unfold bulk_guard. change (to_u64 2) with 2.
    pose proof (bulk_width_min rec) as Hw. unfold MAX_BULK in Hw.
    assert (Hb : loops rec * bulk_width rec <= (two32 - 1) * 32).
    { apply Z.mul_le_mono_nonneg; lia. }
    assert (Hn : 0 <= loops rec * bulk_width rec)
      by (apply Z.mul_nonneg_nonneg; lia).
    rewrite (to_u64_small (loops rec)) by (unfold two32, two64 in *; lia).
    rewrite (to_u64_small (bulk_width rec)) by (unfold two64; lia).
    rewrite (to_u64_small (loops rec * bulk_width rec))
      by (unfold two32, two64 in *; lia).
    rewrite to_u64_small by (unfold two32, two64 in *; lia).
    ring.
Qed.

Lemma total_ops_pos_width v rec :
  wf_record rec -> 0 < total_ops v rec -> 0 < ops_per_iteration v rec.
Proof.
  intros [Hlo _] Hpos. unfold total_ops in Hpos.
  destruct (Z_lt_le_dec 0 (ops_per_iteration v rec)) as [H | H]; [exact H |].
  pose proof (Z.mul_nonneg_nonpos _ _ Hlo H). lia.
Qed.

(** *** The three ways through a workload *)

Lemma workload_null v rec :
  workload v rec None
  = Some {| ret := -1; queue_after := None; trace := [PrErr (msg_null v)] |}.
Proof. destruct v; reflexivity. Qed.

Lemma workload_guarded v rec q :
  workload v rec (Some q)
  = if guard_limit <=? guard_value v rec
    then Some {| ret := 0; queue_after := Some q;
                 trace := PrErr msg_overflow :: preamble v rec |}
    else workload v rec (Some q).
Proof.
  destruct v; simpl; unfold time_bench_single_enqueue_dequeue,
    time_multi_enqueue_dequeue, time_BULK_enqueue_dequeue;
    match goal with |- context [guard_limit <=? ?g] =>
      destruct (guard_limit <=? g); reflexivity end.
Qed.

Lemma workload_rejected v rec q :
  wf_record rec -> two32 - 1 <= total_ops v rec ->
  workload v rec (Some q)
  = Some {| ret := 0; queue_after := Some q;
            trace := PrErr msg_overflow :: preamble v rec |}.
Proof.
  intros Hwf Htot. rewrite workload_guarded.
  rewrite guard_value_exact, guard_limit_val.
  - destruct (Z.leb_spec (two32 - 1) (total_ops v rec)); [reflexivity | lia].
  - exact Hwf.
  - apply Z.lt_le_incl, total_ops_pos_width; [exact Hwf | unfold two32 in *; lia].
Qed.

Lemma workload_outcome v rec q :
  wf_record rec -> 0 <= ops_per_iteration v rec -> total_ops v rec < two32 - 1 ->
  exists r q',
    workload v rec (Some q) = Some r /\ queue_after r = Some q' /\
    (completes (call_width v rec) (preamble v rec) (total_ops v rec) r \/
     aborts (call_width v rec) (preamble v rec) (fail_code v) r).
Proof.
  intros Hwf Hops Htot.
  pose proof (guard_value_exact v rec Hwf Hops) as Hg.
  assert (Hpass : (guard_limit <=? guard_value v rec) = false).
  { rewrite Hg, guard_limit_val. apply Z.leb_gt. exact Htot. }
  assert (H64 : total_ops v rec < two64) by (unfold two32, two64 in *; lia).
  unfold total_ops in *.
  destruct v; unfold guard_value, ops_per_iteration, workload, preamble,
    fail_code, call_width in *.
  - unfold time_bench_single_enqueue_dequeue. rewrite Hpass, single_trip_pair.
    pose proof (pair_loop rec [OnStack] 1 [] (emit TimeBenchStart (entry q)) Hwf
                  ltac:(lia) ltac:(lia) eq_refl eq_refl (ok_trace_start _ [])) as H.
    replace (2 * 1 * loops rec) with (loops rec * 2) in H by ring.
    destruct (for_loop _ _) as [f | f | f]; simpl in H; [| | contradiction].
    + destruct H as [Hc Htr]. eexists; eexists.
      split; [reflexivity |]. split; [reflexivity |]. left.
      split; simpl; [rewrite Hc; reflexivity |].
      eexists. split; [rewrite Hc; reflexivity | exact Htr].
    + eexists; eexists. split; [reflexivity |]. split; [reflexivity |]. right.
      split; [reflexivity | exact H].
  - unfold time_multi_enqueue_dequeue. rewrite Hpass.
    pose proof (to_int_range (step rec)) as Hr. fold (multi_elems rec) in Hr.
    pose proof (multi_loop rec (multi_elems rec) []
                  (emit TimeBenchStart (entry q)) Hwf
                  ltac:(lia) ltac:(lia) eq_refl eq_refl (ok_trace_start _ [])) as H.
    replace (2 * multi_elems rec * loops rec)
      with (loops rec * (2 * multi_elems rec)) in H by ring.
    destruct (for_loop _ _) as [f | f | f]; simpl in H; [| | contradiction].
    + destruct H as [Hc Htr]. eexists; eexists.
      split; [reflexivity |]. split; [reflexivity |]. left.
      split; simpl; [rewrite Hc; reflexivity |].
      eexists. split; [rewrite Hc; reflexivity | exact Htr].
    + eexists; eexists. split; [reflexivity |]. split; [reflexivity |]. right.
      split; [reflexivity | exact H].
  - unfold time_BULK_enqueue_dequeue. rewrite Hpass, bulk_trip_pair.
    pose proof (pair_loop rec bulk_objs (bulk_width rec) (bulk_warning rec)
                  {| f_i := 0; f_n := 0; f_loops_cnt := 0; f_data := q;
                     f_trace := TimeBenchStart :: bulk_warning rec |} Hwf
                  ltac:(lia) ltac:(lia) eq_refl eq_refl (ok_trace_start _ _)) as H.
    replace (2 * bulk_width rec * loops rec)
      with (loops rec * (2 * bulk_width rec)) in H by ring.
    destruct (for_loop _ _) as [f | f | f]; simpl in H; [| | contradiction].
    + destruct H as [Hc Htr]. eexists; eexists.
      split; [reflexivity |]. split; [reflexivity |]. left.
      split; simpl; [rewrite Hc; reflexivity |].
      eexists. split; [rewrite Hc; reflexivity | exact Htr].
    + eexists; eexists. split; [reflexivity |]. split; [reflexivity |]. right.
      split; [reflexivity | exact H].
Qed.

(** *** Reading the trace of a run *)

Lemma ok_call_kind w e :
  ok_call w e ->
  call_failed e = false /\ is_start e = false /\ is_stop e = false /\
  is_warning e = false /\ (forall n, width_of e = Some n -> n = w).
Proof.
  destruct e; simpl; try contradiction; intros (Hn & Hr & _);
    (repeat split; [apply Z.ltb_ge; exact Hr | congruence]).
Qed.

Lemma bad_call_kind w e :
  bad_call w e ->
  call_failed e = true /\ is_start e = false /\ is_stop e = false /\
  is_warning e = false /\ (forall n, width_of e = Some n -> n = w).
Proof.
  destruct e; simpl; try contradiction; intros (Hn & Hr & _);
    (repeat split; [apply Z.ltb_lt; exact Hr | congruence]).
Qed.

Lemma ok_calls_quiet w calls :
  Forall (ok_call w) calls ->
  any_failure calls = false /\ timer_started calls = false /\
  timer_stopped calls = false /\ warnings calls = [] /\
  calls_of_width w calls.
Proof.
  induction 1 as [| e calls He _ IH].
  - repeat split. constructor.
  - destruct (ok_call_kind w e He) as (H1 & H2 & H3 & H4 & H5).
    destruct IH as (I1 & I2 & I3 & I4 & I5).
    unfold any_failure, timer_started, timer_stopped, warnings in *. simpl.
    rewrite H1, H2, H3, H4, I1, I2, I3, I4.
    repeat split. constructor; assumption.
Qed.

(** What the workloads log ahead of the timer holds no call and no timer
    event, and at most the clamp warning. *)
Lemma preamble_quiet v rec :
  any_failure (preamble v rec) = false /\
  timer_started (preamble v rec) = false /\
  timer_stopped (preamble v rec) = false /\
  queue_calls (preamble v rec) = [] /\
  warnings (preamble v rec) = preamble v rec /\
  ~ In (PrErr msg_overflow) (preamble v rec) /\
  calls_of_width (call_width v rec) (preamble v rec).
Proof.
  assert (Hnil : forall w,
    any_failure [] = false /\ timer_started [] = false /\
    timer_stopped [] = false /\ queue_calls [] = [] /\
    warnings [] = [] /\ ~ In (PrErr msg_overflow) [] /\ calls_of_width w []).
  { intros w. repeat split; [intros [] | constructor]. }
  destruct v; simpl preamble; try apply Hnil.
  unfold bulk_warning. destruct (MAX_BULK <? bulk_requested rec); [| apply Hnil].
  repeat split.
  - intros [H | []]. discriminate H.
  - constructor; [| constructor]. simpl. discriminate.
Qed.

Lemma ok_trace_read w pre tr :
  ok_trace w pre tr ->
  any_failure tr = any_failure pre /\ timer_started tr = true /\
  timer_stopped tr = timer_stopped pre /\ warnings tr = warnings pre /\
  (calls_of_width w pre -> calls_of_width w tr) /\
  (In (PrErr msg_overflow) tr -> In (PrErr msg_overflow) pre).
Proof.
  intros [calls [Hc ->]].
  destruct (ok_calls_quiet w calls Hc) as (H1 & H2 & H3 & H4 & H5).
  unfold any_failure, timer_started, timer_stopped, warnings in *.
  rewrite !existsb_app, filter_app, H1, H3, H4. simpl.
  rewrite orb_true_r. repeat split.
  - intros Hpre. apply Forall_app. split; [exact H5 |].
    constructor; [simpl; discriminate | exact Hpre].
  - intros Hin. apply in_app_or in Hin. destruct Hin as [Hin | [Hin | Hin]].
    + exfalso. rewrite Forall_forall in Hc. apply Hc in Hin. exact Hin.
    + discriminate Hin.
    + exact Hin.
Qed.

Lemma completes_read v rec total r :
  completes (call_width v rec) (preamble v rec) total r ->
  ret r = to_int total /\
  hd_error (trace r) = Some (TimeBenchStop total) /\
  any_failure (trace r) = false /\ timer_started (trace r) = true /\
  warnings (trace r) = preamble v rec /\
  calls_of_width (call_width v rec) (trace r) /\
  ~ In (PrErr msg_overflow) (trace r).
Proof.
  intros [Hret [tr [Htr Hok]]].
  destruct (ok_trace_read _ _ _ Hok) as (H1 & H2 & H3 & H4 & H5 & H6).
  destruct (preamble_quiet v rec) as (P1 & P2 & P3 & P4 & P5 & P6 & P7).
  rewrite Htr. unfold any_failure, timer_started, warnings in *. simpl.
  rewrite H1, H2, H4, P1, P5. repeat split; try assumption.
  - constructor; [simpl; discriminate | apply H5; exact P7].
  - intros [Hin | Hin]; [discriminate Hin | auto].
Qed.

Lemma aborts_read v rec code r :
  aborts (call_width v rec) (preamble v rec) code r ->
  ret r = code /\ stops_at_failure (trace r) /\
  any_failure (trace r) = true /\ timer_started (trace r) = true /\
  warnings (trace r) = preamble v rec /\
  ~ In (PrErr msg_overflow) (trace r).
Proof.
  intros [Hret (e & calls & He & Hc & Htr)].
  destruct (bad_call_kind _ _ He) as (B1 & B2 & B3 & B4 & B5).
  destruct (ok_trace_read (call_width v rec) (preamble v rec)
              (calls ++ TimeBenchStart :: preamble v rec))
    as (H1 & H2 & H3 & H4 & H5 & H6); [exists calls; auto |].
  destruct (preamble_quiet v rec) as (P1 & P2 & P3 & P4 & P5 & P6 & P7).
  rewrite Htr. unfold stops_at_failure.
  unfold any_failure, timer_started, timer_stopped, warnings in *. simpl.
  rewrite B1, B2, B3, B4, H2, H3, H4, P3, P5. simpl.
  repeat split; try assumption.
  - exists e, (calls ++ TimeBenchStart :: preamble v rec).
    repeat split; [exact B1 | rewrite H1; exact P1].
  - intros [Hin | Hin]; [subst e; exact He | auto].
Qed.

(** *** Queues that never report failure *)

Lemma never_fails_no_bad_call w e : never_fails -> ~ bad_call w e.
Proof.
  intros [Henq Hdeq] Hbad. destruct e; simpl in Hbad; try contradiction.
  - destruct Hbad as (_ & Hr & q & objs & ->). specialize (Henq q objs n). lia.
  - destruct Hbad as (_ & Hr & q & ->). specialize (Hdeq q n). lia.
Qed.

Lemma workload_clean v rec q :
  never_fails ->
  wf_record rec -> 0 <= ops_per_iteration v rec -> total_ops v rec < two32 - 1 ->
  exists r q',
    workload v rec (Some q) = Some r /\ queue_after r = Some q' /\
    completes (call_width v rec) (preamble v rec) (total_ops v rec) r.
Proof.
  intros Hnf Hwf Hops Htot.
  destruct (workload_outcome v rec q Hwf Hops Htot) as (r & q' & E & Hq & [Hc | Ha]).
  - exists r, q'. auto.
  - exfalso. destruct Ha as [_ (e & calls & He & _)].
    exact (never_fails_no_bad_call _ _ Hnf He).
Qed.

End Outcomes.

(** ** Results shared by the properties below *)

Section Shared.
Context {Q : Type} {ops : alf_queue_ops Q}.

(** A run on a queue that never fails, for a configuration the guard lets
    through. *)
Lemma workload_clean_read v rec (q : Q) :
  never_fails ->
  wf_record rec -> 0 <= ops_per_iteration v rec -> total_ops v rec < two32 - 1 ->
  exists r,
    workload v rec (Some q) = Some r /\
    ret r = to_int (total_ops v rec) /\
    hd_error (trace r) = Some (TimeBenchStop (total_ops v rec)) /\
    any_failure (trace r) = false /\ timer_started (trace r) = true /\
    warnings (trace r) = preamble v rec /\
    calls_of_width (call_width v rec) (trace r) /\
    ~ In (PrErr msg_overflow) (trace r).
Proof.
  intros Hnf Hwf Hops Htot.
  destruct (workload_clean v rec q Hnf Hwf Hops Htot) as (r & q' & E & _ & Hc).
  exists r. split; [exact E | exact (completes_read v rec _ r Hc)].
Qed.

(** Any run on a non-null queue: rejected by the guard, carried through, or
    cut short by the first failed call. *)
Lemma workload_cases v rec (q : Q) :
  wf_record rec -> 0 <= ops_per_iteration v rec ->
  exists r,
    workload v rec (Some q) = Some r /\
    ((two32 - 1 <= total_ops v rec /\
      r = {| ret := 0; queue_after := Some q;
             trace := PrErr msg_overflow :: preamble v rec |}) \/
     (total_ops v rec < two32 - 1 /\
      completes (call_width v rec) (preamble v rec) (total_ops v rec) r) \/
     (total_ops v rec < two32 - 1 /\
      aborts (call_width v rec) (preamble v rec) (fail_code v) r)).
Proof.
  intros Hwf Hops.
  destruct (Z_le_gt_dec (two32 - 1) (total_ops v rec)) as [Hbig | Hsmall].
  - eexists. split; [apply workload_rejected; assumption |]. left. auto.
  - destruct (workload_outcome v rec q Hwf Hops ltac:(lia))
      as (r & q' & E & _ & [Hc | Ha]); exists r; (split; [exact E |]).
    + right; left. split; [lia | exact Hc].
    + right; right. split; [lia | exact Ha].
Qed.

Lemma rejected_trace_quiet v rec :
  any_failure (PrErr msg_overflow :: preamble v rec) = false /\
  timer_started (PrErr msg_overflow :: preamble v rec) = false /\
  queue_calls (PrErr msg_overflow :: preamble v rec) = [].
Proof.
  destruct (preamble_quiet v rec) as (P1 & P2 & P3 & P4 & _).
  unfold any_failure, timer_started, queue_calls in *. simpl.
  rewrite P1, P2, P4. repeat split.
Qed.

(** The clean run of each workload, in the terms of its own parameters. *)
Lemma single_op_clean rec (q : Q) :
  never_fails -> wf_record rec -> 2 * loops rec < two32 - 1 ->
  exists r,
    time_bench_single_enqueue_dequeue rec (Some q) = Some r /\
    hd_error (trace r) = Some (TimeBenchStop (2 * loops rec)) /\
    ret r = to_int (2 * loops rec).
Proof.
  intros Hnf Hwf Hg.
  assert (Ht : total_ops SingleOp rec = 2 * loops rec)
    by (unfold total_ops, ops_per_iteration; ring).
  destruct (workload_clean_read SingleOp rec q Hnf Hwf ltac:(simpl; lia)
              ltac:(rewrite Ht; exact Hg)) as (r & E & Hret & Hstop & _).
  rewrite Ht in Hret, Hstop.
  exists r. split; [exact E |]. split; assumption.
Qed.

Lemma multi_clean rec (q : Q) :
  never_fails -> wf_record rec -> 0 <= multi_elems rec ->
  2 * loops rec * multi_elems rec < two32 - 1 ->
  exists r,
    time_multi_enqueue_dequeue rec (Some q) = Some r /\
    hd_error (trace r) = Some (TimeBenchStop (2 * loops rec * multi_elems rec)) /\
    ret r = to_int (2 * loops rec * multi_elems rec).
Proof.
  intros Hnf Hwf He Hg.
  assert (Ht : total_ops UnbatchedMulti rec = 2 * loops rec * multi_elems rec)
    by (unfold total_ops, ops_per_iteration; ring).
  destruct (workload_clean_read UnbatchedMulti rec q Hnf Hwf
              ltac:(unfold ops_per_iteration; lia)
              ltac:(rewrite Ht; exact Hg)) as (r & E & Hret & Hstop & _).
  rewrite Ht in Hret, Hstop.
  exists r. split; [exact E |]. split; assumption.
Qed.

Lemma bulk_clamp rec :
  MAX_BULK < bulk_requested rec ->
  bulk_width rec = MAX_BULK /\
  preamble BulkBatched rec = [PrWarn msg_bulk_cap [bulk_requested rec; MAX_BULK]].
Proof.
  intros Hbig. unfold preamble, bulk_warning, bulk_width.
  destruct (Z.ltb_spec MAX_BULK (bulk_requested rec)); [split; reflexivity | lia].
Qed.

Lemma bulk_clean rec (q : Q) :
  never_fails -> wf_record rec -> MAX_BULK < bulk_requested rec ->
  2 * loops rec * MAX_BULK < two32 - 1 ->
  exists r,
    time_BULK_enqueue_dequeue rec (Some q) = Some r /\
    warnings (trace r) = [PrWarn msg_bulk_cap [bulk_requested rec; MAX_BULK]] /\
    calls_of_width MAX_BULK (trace r) /\
    hd_error (trace r) = Some (TimeBenchStop (2 * loops rec * MAX_BULK)) /\
    ret r = to_int (2 * loops rec * MAX_BULK).
Proof.
  intros Hnf Hwf Hbig Hg.
  destruct (bulk_clamp rec Hbig) as [Hw Hpre].
  assert (Ht : total_ops BulkBatched rec = 2 * loops rec * MAX_BULK)
    by (unfold total_ops, ops_per_iteration; rewrite Hw; ring).
  destruct (workload_clean_read BulkBatched rec q Hnf Hwf
              ltac:(unfold ops_per_iteration; rewrite Hw; unfold MAX_BULK; lia)
              ltac:(rewrite Ht; exact Hg))
    as (r & E & Hret & Hstop & _ & _ & Hwarn & Hcalls & _).
  rewrite Ht in Hret, Hstop. rewrite Hpre in Hwarn.
  unfold call_width in Hcalls. rewrite Hw in Hcalls.
  exists r. split; [exact E |]. repeat split; assumption.
Qed.

Lemma to_int_count z : 0 <= z <= two31 - 1 -> to_int z = z.
Proof. intros H. apply to_int_small. unfold two31 in *. lia. Qed.

End Shared.

(** The simulated queue without a failure schedule never reports failure. *)
Lemma reliable_never_fails : never_fails (ops := Sim.reliable).
Proof.
  split; intros; simpl; unfold Sim.never; simpl; lia.
Qed.

(** ** The calibrator: [time_bench_for_loop] *)

Section CalibratorClaims.
Context {Q : Type}.

(** C7 (amended).  For every 32-bit iteration count the calibrator runs the
    empty loop that many times, hands exactly that count to
    [time_bench_stop], leaves [data] alone and makes no other call.  Its
    [int] return value is the count converted to [int]: equal to the
    requested count up to [2^31 - 1]. *)
Theorem for_loop_counts_iterations rec (data : option Q) :
  wf_record rec ->
  time_bench_for_loop rec data
  = Some {| ret := to_int (loops rec);
            queue_after := data;
            trace := [TimeBenchStop (loops rec); TimeBenchStart] |} /\
  (loops rec <= two31 - 1 -> to_int (loops rec) = loops rec).
Proof.
  intros Hwf. split.
  - apply time_bench_for_loop_run. exact Hwf.
  - intros Hsmall. apply to_int_count. destruct Hwf. lia.
Qed.

End CalibratorClaims.

Lemma for_loop_counts_iterations_witness :
  wf_record {| loops := 1410065408; step := 0 |} /\
  time_bench_for_loop {| loops := 1410065408; step := 0 |} (@None Ring.ring)
  = Some {| ret := 1410065408; queue_after := None;
            trace := [TimeBenchStop 1410065408; TimeBenchStart] |}.
Proof.
  assert (Hwf : wf_record {| loops := 1410065408; step := 0 |})
    by (unfold wf_record, two32; simpl; lia).
  split; [exact Hwf |].
  exact (proj1 (for_loop_counts_iterations _ (@None Ring.ring) Hwf)).
Defined.

(** C7 as stated fails above [INT_MAX]: asked for 3,000,000,000 iterations the
    calibrator counts them all but returns -1,294,967,296. *)
Lemma for_loop_count_exceeds_int :
  wf_record {| loops := 3000000000; step := 0 |} /\
  exists r,
    time_bench_for_loop {| loops := 3000000000; step := 0 |} (@None Ring.ring)
    = Some r /\
    hd_error (trace r) = Some (TimeBenchStop 3000000000) /\
    ret r = -1294967296 /\ ret r <> 3000000000.
Proof.
  assert (Hwf : wf_record {| loops := 3000000000; step := 0 |})
    by (unfold wf_record, two32; simpl; lia).
  split; [exact Hwf |].
  eexists. split; [apply time_bench_for_loop_run; exact Hwf |].
  simpl. repeat split. discriminate.
Qed.

(** ** The workloads *)

Section WorkloadClaims.
Context {Q : Type} {ops : alf_queue_ops Q}.

(** C1 (amended).  For every loop count [N] with [2*N < 2^32 - 1] and a
    non-null queue whose enqueue and dequeue never report failure, the
    Single-Op workload hands the operation count [2*N] to
    [time_bench_stop] and returns it converted to [int]: exactly [2*N] as
    long as [2*N <= 2^31 - 1]; with [N = 1,000,000] it returns
    2,000,000. *)
Theorem single_op_count rec (q : Q) :
  never_fails -> wf_record rec -> 2 * loops rec < two32 - 1 ->
  exists r,
    time_bench_single_enqueue_dequeue rec (Some q) = Some r /\
    hd_error (trace r) = Some (TimeBenchStop (2 * loops rec)) /\
    ret r = to_int (2 * loops rec) /\
    (2 * loops rec <= two31 - 1 -> ret r = 2 * loops rec) /\
    (loops rec = 1000000 -> ret r = 2000000).
Proof.
  intros Hnf Hwf Hg.
  destruct (single_op_clean rec q Hnf Hwf Hg) as (r & E & Hstop & Hret).
  exists r. split; [exact E |]. split; [exact Hstop |]. split; [exact Hret |].
  split.
  - intros Hsmall. rewrite Hret. apply to_int_count. destruct Hwf. lia.
  - intros HN. rewrite Hret, HN. reflexivity.
Qed.

(** C2 (amended).  For every loop count [N] and inner width [elems] with
    [2*N*elems < 2^32 - 1] and a non-null queue whose operations never
    fail, the Unbatched-Multi workload hands the operation count
    [2*N*elems] to [time_bench_stop] and returns it converted to [int]:
    exactly [2*N*elems] as long as that is at most [2^31 - 1]; with
    [N = 100,000] and [elems = 128] it returns 25,600,000. *)
Theorem multi_count rec (q : Q) :
  never_fails -> wf_record rec -> 0 <= multi_elems rec ->
  2 * loops rec * multi_elems rec < two32 - 1 ->
  exists r,
    time_multi_enqueue_dequeue rec (Some q) = Some r /\
    hd_error (trace r) = Some (TimeBenchStop (2 * loops rec * multi_elems rec)) /\
    ret r = to_int (2 * loops rec * multi_elems rec) /\
    (2 * loops rec * multi_elems rec <= two31 - 1 ->
     ret r = 2 * loops rec * multi_elems rec) /\
    (loops rec = 100000 -> multi_elems rec = 128 -> ret r = 25600000).
Proof.
  intros Hnf Hwf He Hg.
  destruct (multi_clean rec q Hnf Hwf He Hg) as (r & E & Hstop & Hret).
  assert (Hnn : 0 <= 2 * loops rec * multi_elems rec)
    by (destruct Hwf; apply Z.mul_nonneg_nonneg; lia).
  exists r. split; [exact E |]. split; [exact Hstop |]. split; [exact Hret |].
  split.
  - intros Hsmall. rewrite Hret. apply to_int_count. lia.
  - intros HN HE. rewrite Hret, HN, HE. reflexivity.
Qed.

(** C3 (amended).  For every bulk width greater than [MAX_BULK = 32] the
    Bulk-Batched workload clamps the width to 32 and logs one warning; a
    configuration whose clamped count [2*N*32] passes the guard is run on
    a never-failing queue to the end, every queue call asks for 32
    pointers, the count handed to [time_bench_stop] is [2*N*32], and the
    return value is that count converted to [int]: exactly [2*N*32] as
    long as it is at most [2^31 - 1]; with [N = 10,000,000] it returns
    640,000,000. *)
Theorem bulk_clamped_count rec (q : Q) :
  never_fails -> wf_record rec -> MAX_BULK < bulk_requested rec ->
  2 * loops rec * MAX_BULK < two32 - 1 ->
  exists r,
    time_BULK_enqueue_dequeue rec (Some q) = Some r /\
    bulk_width rec = MAX_BULK /\
    warnings (trace r) = [PrWarn msg_bulk_cap [bulk_requested rec; MAX_BULK]] /\
    calls_of_width MAX_BULK (trace r) /\
    hd_error (trace r) = Some (TimeBenchStop (2 * loops rec * MAX_BULK)) /\
    ret r = to_int (2 * loops rec * MAX_BULK) /\
    (2 * loops rec * MAX_BULK <= two31 - 1 -> ret r = 2 * loops rec * MAX_BULK) /\
    (loops rec = 10000000 -> ret r = 640000000).
Proof.
  intros Hnf Hwf Hbig Hg.
  destruct (bulk_clamp rec Hbig) as [Hw _].
  destruct (bulk_clean rec q Hnf Hwf Hbig Hg)
    as (r & E & Hwarn & Hcalls & Hstop & Hret).
  exists r. split; [exact E |]. split; [exact Hw |]. split; [exact Hwarn |].
  split; [exact Hcalls |]. split; [exact Hstop |]. split; [exact Hret |].
  split.
  - intros Hsmall. rewrite Hret. apply to_int_count.
    destruct Hwf. unfold MAX_BULK in *. lia.
  - intros HN. rewrite Hret, HN. reflexivity.
Qed.

(** C10.  Every workload accumulates its operation count in the 64-bit
    [loops_cnt] and returns it through [int]: on a never-failing queue, for
    a configuration that passes the overflow guard with a total count above
    [2^31 - 1], [time_bench_stop] receives the true count while the value
    returned is that count reduced modulo [2^32] and read as a signed
    number, which is negative and not the count. *)
Theorem count_returned_through_int v rec (q : Q) :
  never_fails -> wf_record rec ->
  total_ops v rec < two32 - 1 -> two31 - 1 < total_ops v rec ->
  exists r,
    workload v rec (Some q) = Some r /\
    hd_error (trace r) = Some (TimeBenchStop (total_ops v rec)) /\
    ret r = to_int (total_ops v rec) /\
    ret r = total_ops v rec mod two32 - two32 /\
    ret r < 0 /\ ret r <> total_ops v rec.
Proof.
  intros Hnf Hwf Hg Hbig.
  assert (Hops : 0 <= ops_per_iteration v rec).
  { apply Z.lt_le_incl, total_ops_pos_width; [exact Hwf | unfold two31 in *; lia]. }
  destruct (workload_clean_read v rec q Hnf Hwf Hops Hg)
    as (r & E & Hret & Hstop & _).
  assert (Hhigh : to_int (total_ops v rec) = total_ops v rec - two32)
    by (apply to_int_high; lia).
  exists r. repeat split; try assumption.
  - rewrite Hret, Hhigh, Z.mod_small; [reflexivity | unfold two31, two32 in *; lia].
  - rewrite Hret, Hhigh. lia.
  - rewrite Hret, Hhigh. unfold two32. lia.
Qed.

(** C5.  For every configuration whose total operation count
    [loops * ops_per_iteration] is [2^32 - 1] or more, the workload rejects
    the configuration before the timer is started: it returns 0, logs the
    overflow error, makes no enqueue or dequeue call and leaves the queue
    as it was. *)
Theorem overflow_rejected v rec (q : Q) :
  wf_record rec -> two32 - 1 <= total_ops v rec ->
  exists r,
    workload v rec (Some q) = Some r /\
    ret r = 0 /\ queue_after r = Some q /\
    timer_started (trace r) = false /\ queue_calls (trace r) = [] /\
    In (PrErr msg_overflow) (trace r).
Proof.
  intros Hwf Hbig.
  destruct (rejected_trace_quiet v rec) as (_ & Hstart & Hcalls).
  eexists. split; [apply workload_rejected; assumption |].
  simpl ret. simpl queue_after. simpl trace.
  repeat split; try assumption. left. reflexivity.
Qed.

(** C8.  For every workload, a null queue pointer makes it return -1 at
    once: the error is logged, the timer is not started and no enqueue or
    dequeue is invoked. *)
Theorem null_queue_refused v rec :
  exists r,
    workload v rec (@None Q) = Some r /\
    ret r = -1 /\ queue_after r = None /\
    trace r = [PrErr (msg_null v)] /\
    timer_started (trace r) = false /\ queue_calls (trace r) = [].
Proof.
  eexists. split; [apply workload_null |]. repeat split.
Qed.

(** C9.  In the Bulk-Batched workload the clamp precedes the overflow
    guard, so the guard compares [2 * loops * min(bulk, 32)]: a
    configuration whose requested product [2 * loops * bulk] is at or above
    [2^32 - 1] while its clamped product is below is not rejected: the
    warning is logged, the timer is started, and unless a queue call fails
    the run ends with [time_bench_stop] on the clamped count. *)
Theorem bulk_guard_after_clamp rec (q : Q) :
  wf_record rec ->
  two32 - 1 <= 2 * loops rec * bulk_requested rec ->
  2 * loops rec * Z.min (bulk_requested rec) MAX_BULK < two32 - 1 ->
  bulk_guard rec = 2 * loops rec * Z.min (bulk_requested rec) MAX_BULK /\
  exists r,
    time_BULK_enqueue_dequeue rec (Some q) = Some r /\
    warnings (trace r) = [PrWarn msg_bulk_cap [bulk_requested rec; MAX_BULK]] /\
    timer_started (trace r) = true /\
    ~ In (PrErr msg_overflow) (trace r) /\
    (any_failure (trace r) = false ->
     hd_error (trace r) = Some (TimeBenchStop (2 * loops rec * MAX_BULK))).
Proof.
  intros Hwf Hreq Hclamped.
  assert (Hbig : MAX_BULK < bulk_requested rec).
  { destruct (Z_lt_le_dec MAX_BULK (bulk_requested rec)) as [H | H]; [exact H |].
    rewrite Z.min_l in Hclamped by exact H. lia. }
  assert (Hw : bulk_width rec = MAX_BULK).
  { unfold bulk_width. destruct (Z.ltb_spec MAX_BULK (bulk_requested rec)); lia. }
  assert (Hpre : preamble BulkBatched rec
                 = [PrWarn msg_bulk_cap [bulk_requested rec; MAX_BULK]]).
  { unfold preamble, bulk_warning.
    destruct (Z.ltb_spec MAX_BULK (bulk_requested rec)); [reflexivity | lia]. }
  rewrite Z.min_r in * by lia.
  assert (Hops : 0 <= ops_per_iteration BulkBatched rec)
    by (unfold ops_per_iteration; rewrite Hw; unfold MAX_BULK; lia).
  assert (Ht : total_ops BulkBatched rec = 2 * loops rec * MAX_BULK)
    by (unfold total_ops, ops_per_iteration; rewrite Hw; ring).
  split.
  - change (bulk_guard rec) with (guard_value BulkBatched rec).
    rewrite guard_value_exact by assumption. exact Ht.
  - destruct (workload_outcome BulkBatched rec q Hwf Hops
                ltac:(rewrite Ht; exact Hclamped))
      as (r & q' & E & _ & [Hc | Ha]); exists r; (split; [exact E |]).
    + destruct (completes_read _ _ _ _ Hc) as (_ & Hstop & _ & Hst & Hwarn & _ & Hno).
      rewrite Hpre in Hwarn. rewrite Ht in Hstop.
      repeat split; try assumption. intros _. exact Hstop.
    + destruct (aborts_read _ _ _ _ Ha) as (_ & _ & Hfail & Hst & Hwarn & Hno).
      rewrite Hpre in Hwarn. repeat split; try assumption.
      intros Hnone. rewrite Hnone in Hfail. discriminate Hfail.
Qed.

(** C4 (amended).  For every workload, when an enqueue or dequeue call
    reports failure the run stops with that call: no further call is made,
    [time_bench_stop] is not reached and the partial count is dropped.
    Single-Op then returns 0; Unbatched-Multi and Bulk-Batched return
    -1. *)
Theorem failure_aborts_run v rec (q : Q) :
  wf_record rec -> 0 <= ops_per_iteration v rec ->
  exists r,
    workload v rec (Some q) = Some r /\
    (any_failure (trace r) = true ->
     stops_at_failure (trace r) /\
     ret r = match v with SingleOp => 0 | UnbatchedMulti | BulkBatched => -1 end).
Proof.
  intros Hwf Hops.
  destruct (workload_cases v rec q Hwf Hops) as (r & E & Hcases).
  exists r. split; [exact E |].
  destruct Hcases as [[_ Hr] | [[_ Hc] | [_ Ha]]].
  - destruct (rejected_trace_quiet v rec) as (Hnone & _).
    rewrite Hr. simpl trace. rewrite Hnone. discriminate.
  - destruct (completes_read _ _ _ _ Hc) as (_ & _ & Hnone & _).
    rewrite Hnone. discriminate.
  - destruct (aborts_read _ _ _ _ Ha) as (Hret & Hstop & _).
    intros _. split; [exact Hstop |]. rewrite Hret. destruct v; reflexivity.
Qed.

End WorkloadClaims.

(** ** The properties at concrete configurations *)

(** Closed arithmetic side conditions are settled by evaluation. *)
Ltac by_evaluation :=
  vm_compute; repeat split; first [reflexivity | congruence].

Lemma single_op_count_witness :
  never_fails (ops := Sim.reliable) /\
  wf_record {| loops := 1000000; step := 0 |} /\
  2 * 1000000 < two32 - 1 /\
  exists r,
    time_bench_single_enqueue_dequeue (ops := Sim.reliable)
      {| loops := 1000000; step := 0 |} (Some Sim.fresh) = Some r /\
    hd_error (trace r) = Some (TimeBenchStop 2000000) /\
    ret r = 2000000.
Proof.
  assert (Hnf : never_fails (ops := Sim.reliable))
    by (split; intros; simpl; unfold Sim.never; lia).
  assert (Hwf : wf_record {| loops := 1000000; step := 0 |}) by by_evaluation.
  assert (Hg : 2 * 1000000 < two32 - 1) by by_evaluation.
  repeat (split; [assumption |]).
  destruct (single_op_count (ops := Sim.reliable) {| loops := 1000000; step := 0 |}
              Sim.fresh Hnf Hwf Hg) as (r & E & Hstop & _ & _ & Hret).
  exists r. split; [exact E |]. split; [exact Hstop |]. apply Hret; reflexivity.
Defined.

(** C1 as stated fails between [2^31] and [2^32 - 1]: 1,500,000,000 loops
    pass the guard, 3,000,000,000 operations are counted, and the function
    returns -1,294,967,296. *)
Lemma single_op_count_exceeds_int :
  never_fails (ops := Sim.reliable) /\
  2 * 1500000000 < two32 - 1 /\
  exists r,
    time_bench_single_enqueue_dequeue (ops := Sim.reliable)
      {| loops := 1500000000; step := 0 |} (Some Sim.fresh) = Some r /\
    hd_error (trace r) = Some (TimeBenchStop 3000000000) /\
    ret r = -1294967296 /\ ret r <> 2 * 1500000000.
Proof.
  split; [exact reliable_never_fails |]. split; [by_evaluation |].
  destruct (single_op_clean (ops := Sim.reliable)
              {| loops := 1500000000; step := 0 |} Sim.fresh reliable_never_fails
              ltac:(by_evaluation) ltac:(by_evaluation))
    as (r & E & Hstop & Hret).
  exists r. split; [exact E |]. split; [exact Hstop |].
  split; [exact Hret | rewrite Hret; by_evaluation].
Qed.

Lemma multi_count_witness :
  never_fails (ops := Sim.reliable) /\
  wf_record {| loops := 100000; step := 128 |} /\
  0 <= multi_elems {| loops := 100000; step := 128 |} /\
  2 * 100000 * multi_elems {| loops := 100000; step := 128 |} < two32 - 1 /\
  exists r,
    time_multi_enqueue_dequeue (ops := Sim.reliable)
      {| loops := 100000; step := 128 |} (Some Sim.fresh) = Some r /\
    hd_error (trace r) = Some (TimeBenchStop 25600000) /\
    ret r = 25600000.
Proof.
  assert (Hnf : never_fails (ops := Sim.reliable))
    by (split; intros; simpl; unfold Sim.never; lia).
  assert (Hwf : wf_record {| loops := 100000; step := 128 |}) by by_evaluation.
  assert (He : 0 <= multi_elems {| loops := 100000; step := 128 |}) by by_evaluation.
  assert (Hg : 2 * 100000 * multi_elems {| loops := 100000; step := 128 |} < two32 - 1)
    by by_evaluation.
  repeat (split; [assumption |]).
  destruct (multi_count (ops := Sim.reliable) {| loops := 100000; step := 128 |}
              Sim.fresh Hnf Hwf He Hg) as (r & E & Hstop & _ & _ & Hret).
  exists r. split; [exact E |]. split; [exact Hstop |]. apply Hret; reflexivity.
Defined.

(** C2 as stated fails between [2^31] and [2^32 - 1]: 10,000,000 loops of
    width 128 pass the guard, 2,560,000,000 operations are counted, and the
    function returns -1,734,967,296. *)
Lemma multi_count_exceeds_int :
  never_fails (ops := Sim.reliable) /\
  2 * 10000000 * 128 < two32 - 1 /\
  exists r,
    time_multi_enqueue_dequeue (ops := Sim.reliable)
      {| loops := 10000000; step := 128 |} (Some Sim.fresh) = Some r /\
    hd_error (trace r) = Some (TimeBenchStop 2560000000) /\
    ret r = -1734967296 /\ ret r <> 2 * 10000000 * 128.
Proof.
  split; [exact reliable_never_fails |]. split; [by_evaluation |].
  destruct (multi_clean (ops := Sim.reliable)
              {| loops := 10000000; step := 128 |} Sim.fresh reliable_never_fails
              ltac:(by_evaluation) ltac:(by_evaluation) ltac:(by_evaluation))
    as (r & E & Hstop & Hret).
  exists r. split; [exact E |]. split; [exact Hstop |].
  split; [exact Hret | rewrite Hret; by_evaluation].
Qed.

Lemma bulk_clamped_count_witness :
  never_fails (ops := Sim.reliable) /\
  wf_record {| loops := 10000000; step := 50 |} /\
  MAX_BULK < bulk_requested {| loops := 10000000; step := 50 |} /\
  2 * 10000000 * MAX_BULK < two32 - 1 /\
  exists r,
    time_BULK_enqueue_dequeue (ops := Sim.reliable)
      {| loops := 10000000; step := 50 |} (Some Sim.fresh) = Some r /\
    warnings (trace r) = [PrWarn msg_bulk_cap [50; 32]] /\
    calls_of_width 32 (trace r) /\
    hd_error (trace r) = Some (TimeBenchStop 640000000) /\
    ret r = 640000000.
Proof.
  assert (Hnf : never_fails (ops := Sim.reliable))
    by (split; intros; simpl; unfold Sim.never; lia).
  assert (Hwf : wf_record {| loops := 10000000; step := 50 |}) by by_evaluation.
  assert (Hb : MAX_BULK < bulk_requested {| loops := 10000000; step := 50 |})
    by by_evaluation.
  assert (Hg : 2 * 10000000 * MAX_BULK < two32 - 1) by by_evaluation.
  repeat (split; [assumption |]).
  destruct (bulk_clamped_count (ops := Sim.reliable) {| loops := 10000000; step := 50 |}
              Sim.fresh Hnf Hwf Hb Hg)
    as (r & E & _ & Hwarn & Hcalls & Hstop & _ & _ & Hret).
  exists r. split; [exact E |]. split; [exact Hwarn |]. split; [exact Hcalls |].
  split; [exact Hstop |]. apply Hret; reflexivity.
Defined.

(** C3 as stated fails between [2^31] and [2^32 - 1]: 40,000,000 loops at a
    requested width of 50 are clamped to 32 and pass the guard,
    2,560,000,000 operations are counted, and the function returns
    -1,734,967,296. *)
Lemma bulk_clamped_count_exceeds_int :
  never_fails (ops := Sim.reliable) /\
  MAX_BULK < bulk_requested {| loops := 40000000; step := 50 |} /\
  2 * 40000000 * MAX_BULK < two32 - 1 /\
  exists r,
    time_BULK_enqueue_dequeue (ops := Sim.reliable)
      {| loops := 40000000; step := 50 |} (Some Sim.fresh) = Some r /\
    hd_error (trace r) = Some (TimeBenchStop 2560000000) /\
    ret r = -1734967296 /\ ret r <> 2 * 40000000 * MAX_BULK.
Proof.
  split; [exact reliable_never_fails |].
  split; [by_evaluation |]. split; [by_evaluation |].
  destruct (bulk_clean (ops := Sim.reliable)
              {| loops := 40000000; step := 50 |} Sim.fresh reliable_never_fails
              ltac:(by_evaluation) ltac:(by_evaluation) ltac:(by_evaluation))
    as (r & E & _ & _ & Hstop & Hret).
  exists r. split; [exact E |]. split; [exact Hstop |].
  split; [exact Hret | rewrite Hret; by_evaluation].
Qed.

Lemma count_returned_through_int_witness :
  never_fails (ops := Sim.reliable) /\
  wf_record {| loops := 10000000; step := 128 |} /\
  total_ops UnbatchedMulti {| loops := 10000000; step := 128 |} < two32 - 1 /\
  two31 - 1 < total_ops UnbatchedMulti {| loops := 10000000; step := 128 |} /\
  exists r,
    workload (ops := Sim.reliable) UnbatchedMulti
      {| loops := 10000000; step := 128 |} (Some Sim.fresh) = Some r /\
    hd_error (trace r) = Some (TimeBenchStop 2560000000) /\
    ret r = 2560000000 mod two32 - two32 /\ ret r < 0.
Proof.
  assert (Hnf : never_fails (ops := Sim.reliable))
    by (split; intros; simpl; unfold Sim.never; lia).
  assert (Hwf : wf_record {| loops := 10000000; step := 128 |}) by by_evaluation.
  assert (Hg : total_ops UnbatchedMulti {| loops := 10000000; step := 128 |}
               < two32 - 1) by by_evaluation.
  assert (Hb : two31 - 1
               < total_ops UnbatchedMulti {| loops := 10000000; step := 128 |})
    by by_evaluation.
  repeat (split; [assumption |]).
  destruct (count_returned_through_int (ops := Sim.reliable) UnbatchedMulti
              {| loops := 10000000; step := 128 |} Sim.fresh Hnf Hwf Hg Hb)
    as (r & E & Hstop & _ & Hmod & Hneg & _).
  exists r. split; [exact E |]. split; [exact Hstop |].
  split; [exact Hmod | exact Hneg].
Defined.

Lemma overflow_rejected_witness :
  wf_record {| loops := 2147483648; step := 0 |} /\
  two32 - 1 <= total_ops SingleOp {| loops := 2147483648; step := 0 |} /\
  exists r,
    workload SingleOp {| loops := 2147483648; step := 0 |}
             (Some (Ring.empty 512)) = Some r /\
    ret r = 0 /\ queue_after r = Some (Ring.empty 512) /\
    timer_started (trace r) = false /\ queue_calls (trace r) = [].
Proof.
  assert (Hwf : wf_record {| loops := 2147483648; step := 0 |}) by by_evaluation.
  assert (Hbig : two32 - 1
                 <= total_ops SingleOp {| loops := 2147483648; step := 0 |})
    by by_evaluation.
  repeat (split; [assumption |]).
  destruct (overflow_rejected SingleOp {| loops := 2147483648; step := 0 |}
              (Ring.empty 512) Hwf Hbig) as (r & E & H0 & Hq & Hst & Hcalls & _).
  exists r. split; [exact E |]. split; [exact H0 |]. split; [exact Hq |].
  split; [exact Hst | exact Hcalls].
Defined.

Lemma bulk_guard_after_clamp_witness :
  wf_record {| loops := 50000000; step := 50 |} /\
  two32 - 1 <= 2 * 50000000 * bulk_requested {| loops := 50000000; step := 50 |} /\
  2 * 50000000 * Z.min (bulk_requested {| loops := 50000000; step := 50 |}) MAX_BULK
  < two32 - 1 /\
  bulk_guard {| loops := 50000000; step := 50 |} = 3200000000 /\
  exists r,
    time_BULK_enqueue_dequeue {| loops := 50000000; step := 50 |}
                              (Some (Ring.empty 512)) = Some r /\
    timer_started (trace r) = true /\ ~ In (PrErr msg_overflow) (trace r).
Proof.
  assert (Hwf : wf_record {| loops := 50000000; step := 50 |}) by by_evaluation.
  assert (Hreq : two32 - 1
                 <= 2 * 50000000 * bulk_requested {| loops := 50000000; step := 50 |})
    by by_evaluation.
  assert (Hcl : 2 * 50000000
                * Z.min (bulk_requested {| loops := 50000000; step := 50 |}) MAX_BULK
                < two32 - 1) by by_evaluation.
  repeat (split; [assumption |]).
  destruct (bulk_guard_after_clamp {| loops := 50000000; step := 50 |}
              (Ring.empty 512) Hwf Hreq Hcl) as (Hguard & r & E & _ & Hst & Hno & _).
  split; [exact Hguard |].
  exists r. split; [exact E |]. split; [exact Hst | exact Hno].
Defined.

Lemma failure_aborts_run_witness :
  wf_record {| loops := 100; step := 0 |} /\
  0 <= ops_per_iteration SingleOp {| loops := 100; step := 0 |} /\
  exists r,
    workload (ops := Sim.sim_ops true Sim.never (Sim.at_call 5)) SingleOp
             {| loops := 100; step := 0 |} (Some Sim.fresh) = Some r /\
    (any_failure (trace r) = true -> stops_at_failure (trace r) /\ ret r = 0).
Proof.
  assert (Hwf : wf_record {| loops := 100; step := 0 |}) by by_evaluation.
  assert (Hops : 0 <= ops_per_iteration SingleOp
                        {| loops := 100; step := 0 |}) by by_evaluation.
  repeat (split; [assumption |]).
  exact (failure_aborts_run (ops := Sim.sim_ops true Sim.never (Sim.at_call 5))
           SingleOp {| loops := 100; step := 0 |} Sim.fresh Hwf Hops).
Defined.

(** The scenario of C4: the dequeue of the fifth trip of a 100-trip Single-Op
    run reports failure.  Nine operations had been counted; the run returns 0
    and never reaches [time_bench_stop]. *)
Example single_op_fifth_dequeue_fails :
  time_bench_single_enqueue_dequeue
    (ops := Sim.sim_ops true Sim.never (Sim.at_call 5))
    {| loops := 100; step := 0 |} (Some Sim.fresh)
  = Some {| ret := 0;
            queue_after := Some {| Sim.enq_calls := 5; Sim.deq_calls := 5 |};
            trace := [McDequeue 1 (-1); MpEnqueue 1 1;
                      McDequeue 1 1; MpEnqueue 1 1;
                      McDequeue 1 1; MpEnqueue 1 1;
                      McDequeue 1 1; MpEnqueue 1 1;
                      McDequeue 1 1; MpEnqueue 1 1;
                      TimeBenchStart] |}.
Proof. vm_compute. reflexivity. Qed.

(** C4 as stated fails for the two workloads whose [fail:] label returns -1.
    On a ring of two slots the third enqueue of an Unbatched-Multi trip of
    width 3 is refused, and the run returns -1, not 0. *)
Lemma multi_failure_returns_minus_one :
  exists r,
    time_multi_enqueue_dequeue {| loops := 1; step := 3 |} (Some (Ring.empty 2))
    = Some r /\
    trace r = [MpEnqueue 1 (-105); MpEnqueue 1 1; MpEnqueue 1 1; TimeBenchStart] /\
    any_failure (trace r) = true /\
    ret r = -1 /\ ret r <> 0.
Proof.
  eexists. split; [vm_compute; reflexivity |].
  simpl. repeat split. discriminate.
Qed.

(** The same for the Bulk-Batched workload: a bulk of 4 does not fit a ring
    of two slots. *)
Example bulk_failure_returns_minus_one :
  time_BULK_enqueue_dequeue {| loops := 3; step := 4 |} (Some (Ring.empty 2))
  = Some {| ret := -1;
            queue_after := Some (Ring.empty 2);
            trace := [MpEnqueue 4 (-105); TimeBenchStart] |}.
Proof. vm_compute. reflexivity. Qed.

(** Runs on the bounded ring, by evaluation. *)
Example single_op_on_ring :
  option_map (fun r => (ret r, queue_after r, any_failure (trace r)))
    (time_bench_single_enqueue_dequeue {| loops := 1000; step := 0 |}
                                       (Some (Ring.empty 512)))
  = Some (2000, Some (Ring.empty 512), false).
Proof. vm_compute. reflexivity. Qed.

Example multi_on_ring :
  option_map (fun r => (ret r, queue_after r, any_failure (trace r)))
    (time_multi_enqueue_dequeue {| loops := 10; step := 128 |}
                                (Some (Ring.empty 512)))
  = Some (2560, Some (Ring.empty 512), false).
Proof. vm_compute. reflexivity. Qed.

Example bulk_on_ring :
  time_BULK_enqueue_dequeue {| loops := 2; step := 50 |} (Some (Ring.empty 512))
  = Some {| ret := 128;
            queue_after := Some (Ring.empty 512);
            trace := [TimeBenchStop 128;
                      McDequeue 32 32; MpEnqueue 32 32;
                      McDequeue 32 32; MpEnqueue 32 32;
                      TimeBenchStart;
                      PrWarn msg_bulk_cap [50; 32]] |}.
Proof. vm_compute. reflexivity. Qed.

(** ** The driver: [run_benchmark_tests] and module init *)

Section Driver.
Context {Q : Type} {ops : alf_queue_ops Q}.

(** [loops*1000] is computed on [uint32_t]: 10,000,000,000 wraps to
    1,410,065,408. *)
Lemma calibration_run txt :
  time_bench_loop (to_u32 (10000000 * 1000)) 0 txt (@None Q) time_bench_for_loop
  = Some (None, [BenchLoop txt 1410065408;
                 TimeBenchStop 1410065408; TimeBenchStart]).
Proof.
  unfold time_bench_loop.
  rewrite time_bench_for_loop_run by by_evaluation.
  reflexivity.
Qed.

Lemma run_benchmark_tests_without_queue :
  alf_queue_alloc 512 = None ->
  run_benchmark_tests
  = Some {| ret := 0; queue_after := None; trace := trace_without_queue |}.
Proof.
  intros Halloc. unfold run_benchmark_tests. cbv zeta.
  rewrite calibration_run. unfold and_then at 1. cbv beta iota.
  rewrite Halloc. reflexivity.
Qed.

Lemma module_init_without_queue :
  alf_queue_alloc 512 = None ->
  alf_queue_bench_module_init
  = Some {| ret := 0; queue_after := None;
            trace := trace_without_queue ++ [PrInfo "Loaded"] |}.
Proof.
  intros Halloc. unfold alf_queue_bench_module_init.
  rewrite run_benchmark_tests_without_queue by exact Halloc. reflexivity.
Qed.

(** Every [time_bench_loop] call of the driver returns, whatever the queue
    does. *)
Lemma then_bench_returns v sofar loops_arg step_arg txt :
  0 <= ops_per_iteration v {| loops := to_u32 loops_arg; step := step_arg |} ->
  exists sofar', then_bench sofar loops_arg step_arg txt (workload v) = Some sofar'.
Proof.
  intros Hops. unfold then_bench, time_bench_loop.
  destruct (fst sofar) as [q |].
  - destruct (workload_cases v {| loops := to_u32 loops_arg; step := step_arg |} q
                (to_u32_range loops_arg) Hops) as (r & E & _).
    rewrite E. eexists. reflexivity.
  - rewrite workload_null. eexists. reflexivity.
Qed.

(** The driver returns [passed_count], which nothing ever changes. *)
Lemma run_benchmark_tests_returns_zero :
  exists r, run_benchmark_tests = Some r /\ ret r = 0.
Proof.
  unfold run_benchmark_tests. cbv zeta.
  rewrite calibration_run. unfold and_then at 1. cbv beta iota.
  set (s0 := (alf_queue_alloc 512, _)).
  change time_bench_single_enqueue_dequeue with (workload SingleOp).
  change time_multi_enqueue_dequeue with (workload UnbatchedMulti).
  change time_BULK_enqueue_dequeue with (workload BulkBatched).
  destruct (then_bench_returns SingleOp s0 10000000 0 "ALF-simple")
    as [s1 E1]; [by_evaluation |]. rewrite E1. unfold and_then at 1.
  destruct (then_bench_returns UnbatchedMulti s1 (10000000 / 100) 128 "ALF-multi")
    as [s2 E2]; [by_evaluation |]. rewrite E2. unfold and_then at 1.
  destruct (then_bench_returns BulkBatched s2 10000000 2 "ALF-bulk2")
    as [s3 E3]; [by_evaluation |]. rewrite E3. unfold and_then at 1.
  destruct (then_bench_returns BulkBatched s3 10000000 4 "ALF-bulk4")
    as [s4 E4]; [by_evaluation |]. rewrite E4. unfold and_then at 1.
  destruct (then_bench_returns BulkBatched s4 10000000 6 "ALF-bulk6")
    as [s5 E5]; [by_evaluation |]. rewrite E5. unfold and_then at 1.
  destruct (then_bench_returns BulkBatched s5 10000000 8 "ALF-bulk8")
    as [s6 E6]; [by_evaluation |]. rewrite E6. unfold and_then at 1.
  destruct (then_bench_returns BulkBatched s6 10000000 16 "ALF-bulk16")
    as [s7 E7]; [by_evaluation |]. rewrite E7. unfold and_then at 1.
  eexists. split; reflexivity.
Qed.

(** C6 (what the code does instead).  When [alf_queue_alloc] fails the
    driver goes on: each of the seven workloads is invoked on the null
    queue and returns -1, the driver returns [passed_count = 0], and module
    init returns 0, not [-ECANCELED]. *)
Theorem alloc_failure_not_reported :
  alf_queue_alloc 512 = None ->
  (exists r,
     run_benchmark_tests = Some r /\ ret r = 0 /\
     trace r = trace_without_queue) /\
  (exists r,
     alf_queue_bench_module_init = Some r /\ ret r = 0 /\
     ret r <> - ECANCELED).
Proof.
  intros Halloc. split.
  - eexists. split; [apply run_benchmark_tests_without_queue; exact Halloc |].
    split; reflexivity.
  - eexists. split; [apply module_init_without_queue; exact Halloc |].
    split; [reflexivity | discriminate].
Qed.

(** For every queue, module init returns 0: the driver never returns a
    negative value, so the [-ECANCELED] branch is never taken. *)
Lemma module_init_returns_zero :
  exists r, alf_queue_bench_module_init = Some r /\ ret r = 0.
Proof.
  destruct run_benchmark_tests_returns_zero as (r & E & Hret).
  unfold alf_queue_bench_module_init. rewrite E. unfold and_then.
  eexists. split; [reflexivity |]. simpl. rewrite Hret. reflexivity.
Qed.

End Driver.

Lemma alloc_failure_not_reported_witness :
  alf_queue_alloc (alf_queue_ops := Sim.no_memory) 512 = None /\
  (exists r,
     run_benchmark_tests (ops := Sim.no_memory) = Some r /\ ret r = 0) /\
  (exists r,
     alf_queue_bench_module_init (ops := Sim.no_memory) = Some r /\ ret r = 0).
Proof.
  assert (Halloc : alf_queue_alloc (alf_queue_ops := Sim.no_memory) 512 = None)
    by reflexivity.
  split; [exact Halloc |].
  destruct (alloc_failure_not_reported (ops := Sim.no_memory) Halloc)
    as [(r1 & E1 & H1 & _) (r2 & E2 & H2 & _)].
  split; [exists r1 | exists r2]; split; assumption.
Defined.

(** ** Further properties of the workloads *)

Section LoopExits.
Context {St : Type}.

(** A loop whose condition fails at once makes no trip. *)
Lemma for_loop_exit (trip : St -> St + leave St) s l :
  trip s = inr l -> for_loop trip s = l.
Proof.
  intros H. unfold for_loop. rewrite iter_pos_nat.
  destruct (Pos2Nat.is_succ max_trips) as [n Hn]. rewrite Hn.
  simpl. rewrite H. reflexivity.
Qed.

End LoopExits.

Section Outcome.
Context {Q : Type} {ops : alf_queue_ops Q}.

Lemma guard_zero_loops v rec : loops rec = 0 -> guard_value v rec = 0.
Proof.
  intros H0. destruct v; unfold guard_value, single_guard, multi_guard, bulk_guard;
    rewrite H0; reflexivity.
Qed.

Lemma workload_zero_loops v rec (q : Q) :
  loops rec = 0 ->
  workload v rec (Some q)
  = Some {| ret := 0; queue_after := Some q;
            trace := TimeBenchStop 0 :: TimeBenchStart :: preamble v rec |}.
Proof.
  intros H0.
  assert (Hpass : (guard_limit <=? guard_value v rec) = false)
    by (rewrite guard_zero_loops by exact H0; reflexivity).
  destruct v; unfold guard_value in Hpass; unfold workload, preamble.
  - unfold time_bench_single_enqueue_dequeue. rewrite Hpass.
    rewrite (for_loop_exit _ _ (LoopEnd (emit TimeBenchStart (entry q)))).
    + reflexivity.
    + unfold single_trip. rewrite H0. reflexivity.
  - unfold time_multi_enqueue_dequeue. rewrite Hpass.
    rewrite (for_loop_exit _ _ (LoopEnd (emit TimeBenchStart (entry q)))).
    + reflexivity.
    + unfold multi_trip. rewrite H0. reflexivity.
  - unfold time_BULK_enqueue_dequeue. rewrite Hpass.
    rewrite (for_loop_exit _ _
               (LoopEnd {| f_i := 0; f_n := 0; f_loops_cnt := 0; f_data := q;
                           f_trace := TimeBenchStart :: bulk_warning rec |})).
    + reflexivity.
    + unfold bulk_trip. rewrite H0. reflexivity.
Qed.

(** X2.  With a loop count of zero every workload takes the normal path:
    the guard passes whatever the step, the timer is started and stopped
    with a count of 0, no queue call is made, the queue is left as it was
    and 0 is returned. *)
Theorem zero_loops_run v rec (q : Q) :
  loops rec = 0 ->
  exists r,
    workload v rec (Some q) = Some r /\
    ret r = 0 /\ queue_after r = Some q /\
    trace r = TimeBenchStop 0 :: TimeBenchStart :: preamble v rec /\
    queue_calls (trace r) = [].
Proof.
  intros H0. eexists. split; [apply workload_zero_loops; exact H0 |].
  simpl. repeat split.
  destruct (preamble_quiet v rec) as (_ & _ & _ & P4 & _).
  unfold queue_calls in *. simpl. exact P4.
Qed.

Lemma existsb_false_filter {A : Type} (f : A -> bool) l :
  existsb f l = false -> filter f l = [].
Proof.
  induction l as [| a l IH]; simpl; [reflexivity |].
  destruct (f a); simpl; [discriminate | exact IH].
Qed.

Lemma ok_trace_timer w pre tr :
  ok_trace w pre tr ->
  filter is_start tr = TimeBenchStart :: filter is_start pre /\
  filter is_stop tr = filter is_stop pre.
Proof.
  intros [calls [Hc ->]].
  destruct (ok_calls_quiet w calls Hc) as (_ & H2 & H3 & _).
  rewrite !filter_app.
  rewrite (existsb_false_filter is_start calls H2).
  rewrite (existsb_false_filter is_stop calls H3).
  split; reflexivity.
Qed.

Lemma preamble_timer v rec :
  filter is_start (preamble v rec) = [] /\ filter is_stop (preamble v rec) = [].
Proof.
  destruct (preamble_quiet v rec) as (_ & P2 & P3 & _).
  split; apply existsb_false_filter; assumption.
Qed.

(** X1.  The timer calls of any run on a non-null queue.  [time_bench_start]
    is called once, and only for a configuration the overflow guard accepts;
    [time_bench_stop] is called once, with the full count, exactly when the
    configuration is accepted and no queue call reports failure, and never
    with a partial count.  The value returned is then the count converted to
    [int]; in every other case it is 0 or -1. *)
Theorem timer_discipline v rec (q : Q) :
  wf_record rec -> 0 <= ops_per_iteration v rec ->
  exists r,
    workload v rec (Some q) = Some r /\
    filter is_start (trace r)
    = (if total_ops v rec <? two32 - 1 then [TimeBenchStart] else []) /\
    filter is_stop (trace r)
    = (if (total_ops v rec <? two32 - 1) && negb (any_failure (trace r))
       then [TimeBenchStop (total_ops v rec)] else []) /\
    ret r
    = (if (total_ops v rec <? two32 - 1) && negb (any_failure (trace r))
       then to_int (total_ops v rec)
       else if total_ops v rec <? two32 - 1 then fail_code v else 0).
Proof.
  intros Hwf Hops.
  destruct (workload_cases v rec q Hwf Hops) as (r & E & Hcases).
  exists r. split; [exact E |].
  destruct (preamble_timer v rec) as [Ps Pt].
  destruct Hcases as [[Hbig Hr] | [[Hsmall Hc] | [Hsmall Ha]]].
  - assert (Hlt : (total_ops v rec <? two32 - 1) = false) by (apply Z.ltb_ge; exact Hbig).
    rewrite Hlt, Hr. simpl. rewrite Ps, Pt. repeat split.
  - assert (Hlt : (total_ops v rec <? two32 - 1) = true) by (apply Z.ltb_lt; exact Hsmall).
    destruct (completes_read _ _ _ _ Hc) as (Hret & _ & Hnone & _).
    destruct Hc as [_ [tr [Htr Hok]]].
    destruct (ok_trace_timer _ _ _ Hok) as [Hs Ht].
    rewrite Hlt, Hnone, Htr. simpl. rewrite Hs, Ht, Ps, Pt.
    repeat split. exact Hret.
  - assert (Hlt : (total_ops v rec <? two32 - 1) = true) by (apply Z.ltb_lt; exact Hsmall).
    destruct (aborts_read _ _ _ _ Ha) as (Hret & _ & Hfail & _).
    destruct Ha as [_ (e & calls & He & Hc & Htr)].
    destruct (bad_call_kind _ _ He) as (_ & B2 & B3 & _).
    destruct (ok_trace_timer (call_width v rec) (preamble v rec)
                (calls ++ TimeBenchStart :: preamble v rec)) as [Hs Ht];
      [exists calls; auto |].
    rewrite Hlt, Hfail, Htr. simpl. rewrite B2, B3, Hs, Ht, Ps, Pt.
    repeat split. exact Hret.
Qed.

(** X5.  A bulk width that fits the local buffer ([0 <= bulk <= MAX_BULK])
    is used as it is: no warning is logged, every queue call asks for [bulk]
    pointers, and on a never-failing queue a configuration that passes the
    guard hands [2 * loops * bulk] to [time_bench_stop] and returns it
    converted to [int]. *)
Theorem bulk_within_buffer rec (q : Q) :
  never_fails -> wf_record rec ->
  0 <= bulk_requested rec <= MAX_BULK ->
  2 * loops rec * bulk_requested rec < two32 - 1 ->
  exists r,
    time_BULK_enqueue_dequeue rec (Some q) = Some r /\
    warnings (trace r) = [] /\
    calls_of_width (bulk_requested rec) (trace r) /\
    hd_error (trace r) = Some (TimeBenchStop (2 * loops rec * bulk_requested rec)) /\
    ret r = to_int (2 * loops rec * bulk_requested rec).
Proof.
  intros Hnf Hwf Hb Hg.
  assert (Hw : bulk_width rec = bulk_requested rec).
  { unfold bulk_width. destruct (Z.ltb_spec MAX_BULK (bulk_requested rec)); [lia | reflexivity]. }
  assert (Hpre : preamble BulkBatched rec = []).
  { unfold preamble, bulk_warning.
    destruct (Z.ltb_spec MAX_BULK (bulk_requested rec)); [lia | reflexivity]. }
  assert (Ht : total_ops BulkBatched rec = 2 * loops rec * bulk_requested rec)
    by (unfold total_ops, ops_per_iteration; rewrite Hw; ring).
  destruct (workload_clean_read BulkBatched rec q Hnf Hwf
              ltac:(unfold ops_per_iteration; rewrite Hw; lia)
              ltac:(rewrite Ht; exact Hg))
    as (r & E & Hret & Hstop & _ & _ & Hwarn & Hcalls & _).
  rewrite Ht in Hret, Hstop. rewrite Hpre in Hwarn.
  unfold call_width in Hcalls. rewrite Hw in Hcalls.
  exists r. split; [exact E |]. repeat split; assumption.
Qed.

(** *** A negative step *)

Lemma to_u64_neg z : - two64 <= z < 0 -> to_u64 z = z + two64.
Proof.
  intros H. unfold to_u64. symmetry.
  apply Z.mod_unique with (q := -1); unfold two64 in *; lia.
Qed.

Lemma to_u64_drop a b : to_u64 (a + b * two64) = to_u64 a.
Proof. unfold to_u64. apply Z.mod_add. discriminate. Qed.

(** The product of a loop count of at least 1 and a negative [int]. *)
Lemma negative_product l e :
  1 <= l < two32 -> - two31 <= e < 0 ->
  - (two64 - two32) <= 2 * (l * e) < 0.
Proof.
  intros Hl He.
  assert (H1 : l * 1 <= l * (- e)) by (apply Z.mul_le_mono_nonneg_l; lia).
  assert (H2 : l * (- e) <= (two32 - 1) * two31)
    by (apply Z.mul_le_mono_nonneg; lia).
  replace (l * - e) with (- (l * e)) in H1, H2 by ring.
  unfold two31, two32, two64 in *. lia.
Qed.

(** A negative width reaches the guard as a huge unsigned number: for a loop
    count of at least 1 the guard always trips. *)
Lemma guard_trips_on_negative v rec :
  wf_record rec -> 1 <= loops rec -> ops_per_iteration v rec < 0 ->
  (guard_limit <=? guard_value v rec) = true.
Proof.
  intros [Hlo Hhi] Hpos Hneg. apply Z.leb_le. rewrite guard_limit_val.
  destruct v; unfold ops_per_iteration in Hneg; unfold guard_value.
  - lia.
  - pose proof (to_int_range (step rec)) as Hr. fold (multi_elems rec) in Hr.
    assert (He : - two31 <= multi_elems rec < 0) by lia.
    pose proof (negative_product (loops rec) (multi_elems rec) ltac:(lia) He) as Hp.
    unfold multi_guard. change (to_u64 2) with 2.
    rewrite (to_u64_small (loops rec)) by (unfold two32, two64 in *; lia).
    rewrite (to_u64_small (loops rec * 2)) by (unfold two32, two64 in *; lia).
    rewrite (to_u64_neg (multi_elems rec)) by (unfold two31, two64 in *; lia).
    replace (loops rec * 2 * (multi_elems rec + two64))
      with (2 * (loops rec * multi_elems rec) + loops rec * 2 * two64) by ring.
    rewrite to_u64_drop, to_u64_neg by (unfold two32, two64 in *; lia).
    unfold two32, two64 in *. lia.
  - pose proof (to_int_range (step rec)) as Hr. fold (bulk_requested rec) in Hr.
    assert (Hw : bulk_width rec = bulk_requested rec).
    { unfold bulk_width in *.
      destruct (Z.ltb_spec MAX_BULK (bulk_requested rec));
        [unfold MAX_BULK in *; lia | reflexivity]. }
    rewrite Hw in Hneg.
    assert (He : - two31 <= bulk_requested rec < 0) by lia.
    pose proof (negative_product (loops rec) (bulk_requested rec) ltac:(lia) He) as Hp.
    unfold bulk_guard. rewrite Hw. change (to_u64 2) with 2.
    rewrite (to_u64_small (loops rec)) by (unfold two32, two64 in *; lia).
    rewrite (to_u64_neg (bulk_requested rec)) by (unfold two31, two64 in *; lia).
    replace (loops rec * (bulk_requested rec + two64))
      with (loops rec * bulk_requested rec + loops rec * two64) by ring.
    rewrite to_u64_drop.
    rewrite (to_u64_neg (loops rec * bulk_requested rec))
      by (unfold two32, two64 in *; lia).
    replace ((loops rec * bulk_requested rec + two64) * 2)
      with (2 * (loops rec * bulk_requested rec) + 2 * two64) by ring.
    rewrite to_u64_drop, to_u64_neg by (unfold two32, two64 in *; lia).
    unfold two32, two64 in *. lia.
Qed.

Lemma workload_negative_step v rec (q : Q) :
  wf_record rec -> ops_per_iteration v rec < 0 ->
  exists r,
    workload v rec (Some q) = Some r /\
    ret r = 0 /\ queue_after r = Some q /\ queue_calls (trace r) = [] /\
    (1 <= loops rec ->
     trace r = PrErr msg_overflow :: preamble v rec).
Proof.
  intros Hwf Hneg.
  destruct (preamble_quiet v rec) as (_ & _ & _ & P4 & _).
  destruct (Z.eq_dec (loops rec) 0) as [H0 | Hnz].
  - eexists. split; [apply workload_zero_loops; exact H0 |].
    simpl. repeat split; [| lia].
    unfold queue_calls in *. simpl. exact P4.
  - assert (Hpos : 1 <= loops rec) by (destruct Hwf; lia).
    eexists. split.
    + rewrite workload_guarded, (guard_trips_on_negative v rec Hwf Hpos Hneg).
      reflexivity.
    + simpl. repeat split. unfold queue_calls in *. simpl. exact P4.
Qed.

(** X3.  A negative step never reaches the queue.  Read into [int] as a
    negative inner width or bulk width, it makes the Unbatched-Multi and the
    Bulk-Batched workload return 0 without a single queue call: for a loop
    count of at least 1 the overflow guard rejects the configuration (the
    width enters the 64-bit product as a huge unsigned number), and for a
    loop count of 0 the measured loop is empty. *)
Theorem negative_step_no_calls v rec (q : Q) :
  wf_record rec -> ops_per_iteration v rec < 0 ->
  exists r,
    workload v rec (Some q) = Some r /\
    ret r = 0 /\ queue_after r = Some q /\ queue_calls (trace r) = [] /\
    (1 <= loops rec ->
     timer_started (trace r) = false /\ In (PrErr msg_overflow) (trace r)).
Proof.
  intros Hwf Hneg.
  destruct (workload_negative_step v rec q Hwf Hneg) as (r & E & Hret & Hq & Hc & Htr).
  exists r. split; [exact E |]. split; [exact Hret |]. split; [exact Hq |].
  split; [exact Hc |]. intros Hpos. rewrite (Htr Hpos). split.
  - destruct (rejected_trace_quiet v rec) as (_ & Hst & _). exact Hst.
  - left. reflexivity.
Qed.

(** *** The width of the queue calls *)

Lemma aborts_widths v rec code r :
  aborts (call_width v rec) (preamble v rec) code r ->
  calls_of_width (call_width v rec) (trace r).
Proof.
  intros [_ (e & calls & He & Hc & Htr)].
  destruct (bad_call_kind _ _ He) as (_ & _ & _ & _ & B5).
  destruct (ok_trace_read (call_width v rec) (preamble v rec)
              (calls ++ TimeBenchStart :: preamble v rec))
    as (_ & _ & _ & _ & H5 & _); [exists calls; auto |].
  destruct (preamble_quiet v rec) as (_ & _ & _ & _ & _ & _ & P7).
  rewrite Htr. constructor; [exact B5 | apply H5; exact P7].
Qed.

Lemma no_calls_within_buffer tr : queue_calls tr = [] -> calls_within_buffer tr.
Proof.
  unfold queue_calls, calls_within_buffer. induction tr as [| e tr IH]; intros H.
  - constructor.
  - simpl in H. destruct e; simpl in H; try discriminate H;
      (constructor; [simpl; discriminate | apply IH; exact H]).
Qed.

Lemma width_within_buffer w tr :
  0 <= w <= MAX_BULK -> calls_of_width w tr -> calls_within_buffer tr.
Proof.
  intros Hw H. unfold calls_of_width, calls_within_buffer in *.
  apply (Forall_impl _ (P := fun e => forall n, width_of e = Some n -> n = w));
    [| exact H].
  intros e He n Hn. rewrite (He n Hn). exact Hw.
Qed.

(** X4.  The Bulk-Batched workload never asks the queue for more pointers
    than its local arrays hold: for every 32-bit loop count, every step and
    every queue, each enqueue and dequeue of the run is called with a width
    between 0 and [MAX_BULK = 32]. *)
Theorem bulk_calls_within_buffer rec (q : Q) :
  wf_record rec ->
  exists r,
    time_BULK_enqueue_dequeue rec (Some q) = Some r /\
    calls_within_buffer (trace r).
Proof.
  intros Hwf.
  destruct (Z_lt_le_dec (ops_per_iteration BulkBatched rec) 0) as [Hneg | Hops].
  - destruct (workload_negative_step BulkBatched rec q Hwf Hneg)
      as (r & E & _ & _ & Hc & _).
    exists r. split; [exact E | apply no_calls_within_buffer; exact Hc].
  - assert (Hw : 0 <= call_width BulkBatched rec <= MAX_BULK).
    { unfold ops_per_iteration in Hops. unfold call_width.
      rewrite bulk_width_min in *. unfold MAX_BULK in *. lia. }
    destruct (workload_cases BulkBatched rec q Hwf Hops) as (r & E & Hcases).
    exists r. split; [exact E |].
    destruct Hcases as [[_ Hr] | [[_ Hc] | [_ Ha]]].
    + rewrite Hr. apply no_calls_within_buffer.
      destruct (rejected_trace_quiet BulkBatched rec) as (_ & _ & H). exact H.
    + destruct (completes_read _ _ _ _ Hc) as (_ & _ & _ & _ & _ & Hcw & _).
      exact (width_within_buffer _ _ Hw Hcw).
    + exact (width_within_buffer _ _ Hw (aborts_widths _ _ _ _ Ha)).
Qed.

End Outcome.

(** ** The sequence of queue calls *)

Section CallSequence.
Context {Q : Type} {ops : alf_queue_ops Q}.

Lemma calls_made_cons e tr : calls_made (e :: tr) = calls_made tr ++ call_of e.
Proof.
  unfold calls_made. simpl. rewrite rev_app_distr.
  destruct e; reflexivity.
Qed.

Lemma rounds_shift round n :
  round ++ rounds round n = rounds round n ++ round.
Proof.
  unfold rounds. induction n as [| n IH]; simpl.
  - apply app_nil_r.
  - rewrite <- app_assoc. f_equal. exact IH.
Qed.

Lemma rounds_succ round n : rounds round (S n) = rounds round n ++ round.
Proof. exact (rounds_shift round n). Qed.

Lemma preamble_no_calls v rec : calls_made (TimeBenchStart :: preamble v rec) = [].
Proof.
  destruct v; try reflexivity.
  unfold preamble, bulk_warning. destruct (MAX_BULK <? bulk_requested rec); reflexivity.
Qed.

Lemma to_nat_succ z : 0 <= z -> Z.to_nat (z + 1) = S (Z.to_nat z).
Proof. intros H. lia. Qed.

Lemma pair_loop_calls rec objs k (f0 : frame Q) :
  wf_record rec -> f_i f0 = 0 -> calls_made (f_trace f0) = [] ->
  calls_post [Enq k; Deq k] (loops rec) (for_loop (pair_trip rec objs k) f0).
Proof.
  intros [Hlo Hhi] Hi0 Htr0.
  apply (for_loop_rule (pair_trip rec objs k)
           (fun f => 0 <= to_u32 (f_i f) <= loops rec /\
                     calls_made (f_trace f)
                     = rounds [Enq k; Deq k] (Z.to_nat (to_u32 (f_i f))))
           (fun f => loops rec - to_u32 (f_i f))).
  - intros f (Hi & Hc). unfold pair_trip.
    destruct (Z.ltb_spec (to_u32 (f_i f)) (loops rec)) as [Hlt | Hge].
    + destruct (enqueue_eq objs k f) as (r1 & q1 & E1 & _). rewrite E1.
      destruct (Z.ltb_spec r1 0) as [Hr1 | Hr1].
      { simpl. exists (Z.to_nat (to_u32 (f_i f))), [Enq k], [Deq k].
        rewrite calls_made_cons, Hc. simpl.
        repeat split; [lia | discriminate]. }
      destruct (dequeue_eq k (add_cnt k (emit (MpEnqueue k r1) (with_data q1 f))))
        as (r2 & q2 & E2 & _). rewrite E2.
      destruct (Z.ltb_spec r2 0) as [Hr2 | Hr2].
      { simpl. exists (Z.to_nat (to_u32 (f_i f))), [Enq k; Deq k], [].
        rewrite !calls_made_cons, Hc. simpl. rewrite <- app_assoc. simpl.
        repeat split; [lia | discriminate]. }
      assert (Hu : to_u32 (to_int (f_i f + 1)) = to_u32 (f_i f) + 1)
        by (apply to_u32_incr; lia).
      simpl f_i. rewrite Hu. simpl f_trace.
      repeat split; try lia.
      rewrite !calls_made_cons, Hc, to_nat_succ, rounds_succ by lia.
      simpl. rewrite <- app_assoc. reflexivity.
    + simpl. rewrite Hc. f_equal. lia.
  - rewrite Hi0, Htr0. change (to_u32 0) with 0. repeat split; lia.
  - rewrite Hi0. change (to_u32 0) with 0. lia.
Qed.

Lemma count_loop_calls call c elems (f0 : frame Q) :
  (forall f, exists r q' e,
     call f = (r, emit e (with_data q' f)) /\ call_of e = [c]) ->
  0 <= elems < two31 -> f_n f0 = 0 ->
  match for_loop (count_trip call elems) f0 with
  | LoopEnd f =>
      f_i f = f_i f0 /\
      calls_made (f_trace f) = calls_made (f_trace f0) ++ repeat c (Z.to_nat elems)
  | GotoFail f =>
      exists j, (0 < j <= Z.to_nat elems)%nat /\
                calls_made (f_trace f) = calls_made (f_trace f0) ++ repeat c j
  | Unfinished _ => False
  end.
Proof.
  intros Hcall He Hn0.
  apply (for_loop_rule (count_trip call elems)
           (fun f => f_i f = f_i f0 /\ 0 <= f_n f <= elems /\
                     calls_made (f_trace f)
                     = calls_made (f_trace f0) ++ repeat c (Z.to_nat (f_n f)))
           (fun f => elems - f_n f)).
  - intros f (Hi & Hn & Hc). unfold count_trip.
    destruct (Z.ltb_spec (f_n f) elems) as [Hlt | Hge].
    + destruct (Hcall f) as (r & q' & e & E & Hkind). rewrite E.
      assert (Hnext : calls_made (e :: f_trace f)
                      = calls_made (f_trace f0) ++ repeat c (S (Z.to_nat (f_n f)))).
      { rewrite calls_made_cons, Hc, Hkind, <- app_assoc.
        f_equal. symmetry. apply repeat_cons. }
      destruct (Z.ltb_spec r 0) as [Hr | Hr].
      { simpl. exists (S (Z.to_nat (f_n f))). split; [lia | exact Hnext]. }
      assert (Hn' : to_int (f_n f + 1) = f_n f + 1)
        by (apply to_int_small; unfold two31 in *; lia).
      simpl. rewrite Hn'. repeat split; try lia; try assumption.
      rewrite to_nat_succ by lia. exact Hnext.
    + simpl. split; [exact Hi |]. rewrite Hc. do 2 f_equal. lia.
  - rewrite Hn0. simpl. rewrite app_nil_r. repeat split; lia.
  - rewrite Hn0. unfold two31, two32 in *. lia.
Qed.

Lemma enqueue_as_call objs k (f : frame Q) :
  exists r q' e,
    enqueue objs k f = (r, emit e (with_data q' f)) /\ call_of e = [Enq k].
Proof.
  destruct (enqueue_eq objs k f) as (r & q' & E & _).
  exists r, q', (MpEnqueue k r). split; [exact E | reflexivity].
Qed.

Lemma dequeue_as_call k (f : frame Q) :
  exists r q' e,
    dequeue k f = (r, emit e (with_data q' f)) /\ call_of e = [Deq k].
Proof.
  destruct (dequeue_eq k f) as (r & q' & E & _).
  exists r, q', (McDequeue k r). split; [exact E | reflexivity].
Qed.

Lemma repeat_split {A : Type} (a : A) j n :
  (j <= n)%nat -> repeat a n = repeat a j ++ repeat a (n - j).
Proof.
  intros H. rewrite <- repeat_app. f_equal. lia.
Qed.

Lemma repeat_not_nil {A : Type} (a : A) j : (0 < j)%nat -> repeat a j <> [].
Proof. destruct j; [lia | discriminate]. Qed.

Lemma multi_loop_calls rec elems (f0 : frame Q) :
  wf_record rec -> 0 <= elems < two31 ->
  f_i f0 = 0 -> calls_made (f_trace f0) = [] ->
  calls_post (repeat (Enq 1) (Z.to_nat elems) ++ repeat (Deq 1) (Z.to_nat elems))
             (loops rec) (for_loop (multi_trip rec elems) f0).
Proof.
  intros [Hlo Hhi] He Hi0 Htr0.
  set (E := Z.to_nat elems).
  set (R := repeat (Enq 1) E ++ repeat (Deq 1) E).
  apply (for_loop_rule (multi_trip rec elems)
           (fun f => 0 <= to_u32 (f_i f) <= loops rec /\
                     calls_made (f_trace f)
                     = rounds R (Z.to_nat (to_u32 (f_i f))))
           (fun f => loops rec - to_u32 (f_i f))).
  - intros f (Hi & Hc). unfold multi_trip.
    destruct (Z.ltb_spec (to_u32 (f_i f)) (loops rec)) as [Hlt | Hge].
    + rewrite multi_enq_trip_count, multi_deq_trip_count.
      pose proof (count_loop_calls (enqueue [OnStack] 1) (Enq 1) elems (set_n 0 f)
                    (enqueue_as_call _ _) He eq_refl) as H1.
      simpl f_trace in H1. simpl f_i in H1. rewrite Hc in H1. fold E in H1.
      destruct (for_loop (count_trip (enqueue [OnStack] 1) elems) (set_n 0 f))
        as [f1 | f1 | f1]; [| | contradiction].
      * destruct H1 as (Hi1 & Hc1).
        pose proof (count_loop_calls (dequeue 1) (Deq 1) elems (set_n 0 f1)
                      (dequeue_as_call _) He eq_refl) as H2.
        simpl f_trace in H2. simpl f_i in H2. rewrite Hc1 in H2. fold E in H2.
        destruct (for_loop (count_trip (dequeue 1) elems) (set_n 0 f1))
          as [f2 | f2 | f2]; [| | contradiction].
        -- destruct H2 as (Hi2 & Hc2).
           assert (Hu : to_u32 (to_int (f_i f2 + 1)) = to_u32 (f_i f) + 1)
             by (rewrite Hi2, Hi1; apply to_u32_incr; lia).
           simpl f_i. rewrite Hu. simpl f_trace.
           repeat split; try lia.
           rewrite Hc2, to_nat_succ, rounds_succ by lia.
           unfold R. rewrite <- app_assoc. reflexivity.
        -- destruct H2 as (j & Hj & Hc2). simpl.
           exists (Z.to_nat (to_u32 (f_i f))),
                  (repeat (Enq 1) E ++ repeat (Deq 1) j), (repeat (Deq 1) (E - j)).
           repeat split.
           ++ lia.
           ++ rewrite Hc2, <- app_assoc. reflexivity.
           ++ unfold R. rewrite <- app_assoc. f_equal. apply repeat_split. lia.
           ++ intros Hnil. apply app_eq_nil in Hnil. destruct Hnil as [_ Hnil].
              exact (repeat_not_nil _ j ltac:(lia) Hnil).
      * destruct H1 as (j & Hj & Hc1). simpl.
        exists (Z.to_nat (to_u32 (f_i f))),
               (repeat (Enq 1) j), (repeat (Enq 1) (E - j) ++ repeat (Deq 1) E).
        repeat split.
        -- lia.
        -- exact Hc1.
        -- unfold R. rewrite app_assoc. f_equal. apply repeat_split. lia.
        -- apply repeat_not_nil. lia.
    + simpl. rewrite Hc. f_equal. lia.
  - rewrite Hi0, Htr0. change (to_u32 0) with 0. repeat split; lia.
  - rewrite Hi0. change (to_u32 0) with 0. lia.
Qed.

Lemma ok_trace_no_failure v rec tr :
  ok_trace (call_width v rec) (preamble v rec) tr -> any_failure tr = false.
Proof.
  intros H. destruct (ok_trace_read _ _ _ H) as (H1 & _).
  destruct (preamble_quiet v rec) as (P1 & _). rewrite H1. exact P1.
Qed.

Lemma bad_trace_failure w pre tr : bad_trace w pre tr -> any_failure tr = true.
Proof.
  intros (e & calls & He & _ & ->).
  destruct (bad_call_kind _ _ He) as (B1 & _).
  unfold any_failure. simpl. rewrite B1. reflexivity.
Qed.

(** From the loop to the function: the calls of the result. *)
Lemma finish_in_rounds v rec round total (l : leave (frame Q)) :
  loop_post (call_width v rec) (preamble v rec) total l ->
  calls_post round (loops rec) l ->
  match l with
  | LoopEnd f =>
      calls_in_rounds round (loops rec) (TimeBenchStop (f_loops_cnt f) :: f_trace f)
  | GotoFail f => calls_in_rounds round (loops rec) (f_trace f)
  | Unfinished _ => False
  end.
Proof.
  destruct l as [f | f | f]; simpl; intros Hpost Hcalls; [| | contradiction].
  - destruct Hpost as [_ Hok]. unfold calls_in_rounds.
    replace (any_failure (TimeBenchStop (f_loops_cnt f) :: f_trace f))
      with (any_failure (f_trace f)) by reflexivity.
    rewrite (ok_trace_no_failure v rec _ Hok).
    rewrite calls_made_cons. simpl. rewrite app_nil_r. exact Hcalls.
  - unfold calls_in_rounds. rewrite (bad_trace_failure _ _ _ Hpost). exact Hcalls.
Qed.

Lemma workload_in_rounds v rec (q : Q) :
  wf_record rec -> 0 <= ops_per_iteration v rec -> total_ops v rec < two32 - 1 ->
  exists r,
    workload v rec (Some q) = Some r /\
    calls_in_rounds (round_of v rec) (loops rec) (trace r).
Proof.
  intros Hwf Hops Htot.
  pose proof (guard_value_exact v rec Hwf Hops) as Hg.
  assert (Hpass : (guard_limit <=? guard_value v rec) = false).
  { rewrite Hg, guard_limit_val. apply Z.leb_gt. exact Htot. }
  assert (H64 : total_ops v rec < two64) by (unfold two32, two64 in *; lia).
  unfold total_ops in *.
  destruct v; unfold guard_value, ops_per_iteration, workload, round_of in *.
  - unfold time_bench_single_enqueue_dequeue. rewrite Hpass, single_trip_pair.
    pose proof (pair_loop rec [OnStack] 1 [] (emit TimeBenchStart (entry q)) Hwf
                  ltac:(lia) ltac:(lia) eq_refl eq_refl (ok_trace_start _ [])) as H.
    pose proof (pair_loop_calls rec [OnStack] 1 (emit TimeBenchStart (entry q)) Hwf
                  eq_refl eq_refl) as Hc.
    pose proof (finish_in_rounds SingleOp rec _ _ _ H Hc) as Hfin.
    destruct (for_loop _ _) as [f | f | f]; [| | contradiction];
      eexists; (split; [reflexivity | exact Hfin]).
  - unfold time_multi_enqueue_dequeue. rewrite Hpass.
    pose proof (to_int_range (step rec)) as Hr. fold (multi_elems rec) in Hr.
    pose proof (multi_loop rec (multi_elems rec) []
                  (emit TimeBenchStart (entry q)) Hwf
                  ltac:(lia) ltac:(lia) eq_refl eq_refl (ok_trace_start _ [])) as H.
    pose proof (multi_loop_calls rec (multi_elems rec)
                  (emit TimeBenchStart (entry q)) Hwf ltac:(lia)
                  eq_refl eq_refl) as Hc.
    pose proof (finish_in_rounds UnbatchedMulti rec _ _ _ H Hc) as Hfin.
    destruct (for_loop _ _) as [f | f | f]; [| | contradiction];
      eexists; (split; [reflexivity | exact Hfin]).
  - unfold time_BULK_enqueue_dequeue. rewrite Hpass, bulk_trip_pair.
    pose proof (pair_loop rec bulk_objs (bulk_width rec) (bulk_warning rec)
                  {| f_i := 0; f_n := 0; f_loops_cnt := 0; f_data := q;
                     f_trace := TimeBenchStart :: bulk_warning rec |} Hwf
                  ltac:(lia) ltac:(lia) eq_refl eq_refl (ok_trace_start _ _)) as H.
    pose proof (pair_loop_calls rec bulk_objs (bulk_width rec)
                  {| f_i := 0; f_n := 0; f_loops_cnt := 0; f_data := q;
                     f_trace := TimeBenchStart :: bulk_warning rec |} Hwf
                  eq_refl (preamble_no_calls BulkBatched rec)) as Hc.
    pose proof (finish_in_rounds BulkBatched rec _ _ _ H Hc) as Hfin.
    destruct (for_loop _ _) as [f | f | f]; [| | contradiction];
      eexists; (split; [reflexivity | exact Hfin]).
Qed.

(** X6.  The queue calls of a run, in order.  For a configuration that
    passes the guard, every trip of the measured loop issues the same round
    of calls: Single-Op one enqueue then one dequeue of 1 pointer,
    Unbatched-Multi [elems] enqueues then [elems] dequeues of 1 pointer,
    Bulk-Batched one enqueue then one dequeue of the clamped width.  A run in
    which no call fails consists of exactly [loops] rounds; a run in which a
    call fails consists of fewer full rounds followed by the started round up
    to and including the failed call. *)
Theorem calls_follow_rounds v rec (q : Q) :
  wf_record rec -> 0 <= ops_per_iteration v rec -> total_ops v rec < two32 - 1 ->
  exists r,
    workload v rec (Some q) = Some r /\
    if any_failure (trace r) then
      exists n tail rest,
        Z.of_nat n < loops rec /\
        calls_made (trace r) = rounds (round_of v rec) n ++ tail /\
        round_of v rec = tail ++ rest /\ tail <> []
    else calls_made (trace r) = rounds (round_of v rec) (Z.to_nat (loops rec)).
Proof.
  intros Hwf Hops Htot.
  destruct (workload_in_rounds v rec q Hwf Hops Htot) as (r & E & H).
  exists r. split; [exact E | exact H].
Qed.

End CallSequence.

(** ** Further properties of the driver *)

Section DriverSteps.
Context {Q : Type} {ops : alf_queue_ops Q}.

Lemma ok_calls_local w calls :
  Forall (ok_call w) calls ->
  flat_map step_of calls = [] /\ flat_map result_of calls = [] /\
  diagnostics calls = [].
Proof.
  induction 1 as [| e calls He _ IH]; [repeat split |].
  destruct IH as (I1 & I2 & I3).
  destruct e; simpl in He; try contradiction;
    unfold diagnostics in *; simpl; rewrite I1, I2, I3; repeat split.
Qed.

Lemma bad_call_local w e :
  bad_call w e -> step_of e = [] /\ result_of e = [].
Proof. destruct e; simpl; try contradiction; intros _; split; reflexivity. Qed.

Lemma preamble_local v rec :
  flat_map step_of (preamble v rec) = [] /\
  flat_map result_of (preamble v rec) = [].
Proof.
  destruct v; simpl; try (split; reflexivity).
  unfold bulk_warning. destruct (MAX_BULK <? bulk_requested rec); split; reflexivity.
Qed.

(** A workload logs nothing that belongs to the driver. *)
Lemma workload_local v rec data r :
  wf_record rec -> 0 <= ops_per_iteration v rec ->
  workload v rec data = Some r ->
  flat_map step_of (trace r) = [] /\ flat_map result_of (trace r) = [].
Proof.
  intros Hwf Hops E.
  destruct (preamble_local v rec) as [P1 P2].
  destruct data as [q |].
  - destruct (workload_cases v rec q Hwf Hops) as (r' & E' & Hcases).
    rewrite E in E'. injection E' as <-.
    destruct Hcases as [[_ Hr] | [[_ Hc] | [_ Ha]]].
    + rewrite Hr. simpl. split; assumption.
    + destruct Hc as [_ [tr [Htr [calls [Hcalls ->]]]]].
      destruct (ok_calls_local _ _ Hcalls) as (C1 & C2 & _).
      rewrite Htr. simpl. rewrite !flat_map_app, C1, C2. simpl. split; assumption.
    + destruct Ha as [_ (e & calls & He & Hcalls & Htr)].
      destruct (ok_calls_local _ _ Hcalls) as (C1 & C2 & _).
      destruct (bad_call_local _ _ He) as [B1 B2].
      rewrite Htr. simpl. rewrite !flat_map_app, B1, B2, C1, C2. simpl.
      split; assumption.
  - rewrite workload_null in E. injection E as <-. split; reflexivity.
Qed.

(** One [time_bench_loop] call of the driver, on any queue: it returns, and
    the only driver step it adds is the benchmark itself. *)
Lemma then_bench_any v sofar loops_arg step_arg txt :
  0 <= ops_per_iteration v {| loops := to_u32 loops_arg; step := step_arg |} ->
  exists sofar',
    then_bench sofar loops_arg step_arg txt (workload v) = Some sofar' /\
    driver_steps (snd sofar') = driver_steps (snd sofar) ++ [Ran txt].
Proof.
  intros Hops.
  set (rec := {| loops := to_u32 loops_arg; step := step_arg |}) in *.
  assert (Hwf : wf_record rec) by exact (to_u32_range loops_arg).
  assert (Hret : exists r, workload v rec (fst sofar) = Some r).
  { destruct (fst sofar) as [q |].
    - destruct (workload_cases v rec q Hwf Hops) as (r & E & _). exists r. exact E.
    - eexists. apply workload_null. }
  destruct Hret as [r E].
  destruct (workload_local v rec _ r Hwf Hops E) as [L1 _].
  unfold then_bench, time_bench_loop. fold rec. rewrite E.
  eexists. split; [reflexivity |].
  unfold driver_steps. simpl. rewrite flat_map_app, L1. simpl.
  reflexivity.
Qed.

(** One [time_bench_loop] call on a queue that never fails, for a
    configuration that passes the guard without the clamp warning. *)
Lemma then_bench_clean v (q : Q) tr loops_arg step_arg txt :
  never_fails ->
  0 <= ops_per_iteration v {| loops := to_u32 loops_arg; step := step_arg |} ->
  total_ops v {| loops := to_u32 loops_arg; step := step_arg |} < two32 - 1 ->
  preamble v {| loops := to_u32 loops_arg; step := step_arg |} = [] ->
  exists q' tr',
    then_bench (Some q, tr) loops_arg step_arg txt (workload v) = Some (Some q', tr') /\
    bench_results tr'
    = bench_results tr
      ++ [(txt, to_int (total_ops v {| loops := to_u32 loops_arg; step := step_arg |}))] /\
    diagnostics tr' = diagnostics tr.
Proof.
  set (rec := {| loops := to_u32 loops_arg; step := step_arg |}).
  intros Hnf Hops Htot Hpre.
  assert (Hwf : wf_record rec) by exact (to_u32_range loops_arg).
  destruct (workload_clean v rec q Hnf Hwf Hops Htot) as (r & q' & E & Hq & Hc).
  destruct (workload_local v rec _ r Hwf Hops E) as [_ L2].
  destruct Hc as [Hret [tr1 [Htr [calls [Hcalls ->]]]]].
  destruct (ok_calls_local _ _ Hcalls) as (_ & _ & C3).
  exists q', ((BenchLoop txt (ret r) :: trace r) ++ tr).
  split; [| split].
  - unfold then_bench, time_bench_loop. fold rec. simpl fst. rewrite E, Hq.
    reflexivity.
  - unfold bench_results. simpl. rewrite flat_map_app, L2, Hret. simpl. reflexivity.
  - unfold diagnostics in *. simpl. rewrite filter_app, Htr. simpl.
    rewrite filter_app, C3, Hpre. reflexivity.
Qed.

Lemma run_benchmark_tests_steps :
  exists r,
    run_benchmark_tests = Some r /\
    ret r = 0 /\ queue_after r = None /\
    driver_steps (trace r)
    = [Ran "for_loop"; Allocated 512;
       Ran "ALF-simple"; Ran "ALF-multi";
       Ran "ALF-bulk2"; Ran "ALF-bulk4"; Ran "ALF-bulk6";
       Ran "ALF-bulk8"; Ran "ALF-bulk16"; Freed] /\
    hd_error (trace r) = Some QueueFree.
Proof.
  unfold run_benchmark_tests. cbv zeta.
  rewrite calibration_run. unfold and_then at 1. cbv beta iota.
  set (s0 := (alf_queue_alloc 512, _)).
  assert (D0 : driver_steps (snd s0) = [Ran "for_loop"; Allocated 512])
    by reflexivity.
  change time_bench_single_enqueue_dequeue with (workload SingleOp).
  change time_multi_enqueue_dequeue with (workload UnbatchedMulti).
  change time_BULK_enqueue_dequeue with (workload BulkBatched).
  destruct (then_bench_any SingleOp s0 10000000 0 "ALF-simple")
    as (s1 & E1 & D1); [by_evaluation |]. rewrite E1. unfold and_then at 1.
  destruct (then_bench_any UnbatchedMulti s1 (10000000 / 100) 128 "ALF-multi")
    as (s2 & E2 & D2); [by_evaluation |]. rewrite E2. unfold and_then at 1.
  destruct (then_bench_any BulkBatched s2 10000000 2 "ALF-bulk2")
    as (s3 & E3 & D3); [by_evaluation |]. rewrite E3. unfold and_then at 1.
  destruct (then_bench_any BulkBatched s3 10000000 4 "ALF-bulk4")
    as (s4 & E4 & D4); [by_evaluation |]. rewrite E4. unfold and_then at 1.
  destruct (then_bench_any BulkBatched s4 10000000 6 "ALF-bulk6")
    as (s5 & E5 & D5); [by_evaluation |]. rewrite E5. unfold and_then at 1.
  destruct (then_bench_any BulkBatched s5 10000000 8 "ALF-bulk8")
    as (s6 & E6 & D6); [by_evaluation |]. rewrite E6. unfold and_then at 1.
  destruct (then_bench_any BulkBatched s6 10000000 16 "ALF-bulk16")
    as (s7 & E7 & D7); [by_evaluation |]. rewrite E7. unfold and_then at 1.
  eexists. split; [reflexivity |]. cbn [ret queue_after trace].
  split; [reflexivity |]. split; [reflexivity |]. split; [| reflexivity].
  change (driver_steps (QueueFree :: snd s7)) with (driver_steps (snd s7) ++ [Freed]).
  rewrite D7, D6, D5, D4, D3, D2, D1, D0. reflexivity.
Qed.

(** X7.  Once the queue is allocated, the driver takes the same steps in the
    same order whatever the queue does afterwards: the calibration run, the
    allocation of a 512-slot queue, the seven queue benchmarks from
    "ALF-simple" to "ALF-bulk16", and the release of the queue.  No failure
    of a workload keeps a later one from running or the queue from being
    freed; the driver returns [passed_count], which is 0. *)
Theorem driver_runs_every_benchmark (q0 : Q) :
  alf_queue_alloc 512 = Some q0 ->
  exists r,
    run_benchmark_tests = Some r /\
    ret r = 0 /\ queue_after r = None /\
    driver_steps (trace r)
    = [Ran "for_loop"; Allocated 512;
       Ran "ALF-simple"; Ran "ALF-multi";
       Ran "ALF-bulk2"; Ran "ALF-bulk4"; Ran "ALF-bulk6";
       Ran "ALF-bulk8"; Ran "ALF-bulk16"; Freed] /\
    hd_error (trace r) = Some QueueFree.
Proof.
  intros _. exact run_benchmark_tests_steps.
Qed.



(** X8.  On a queue that is allocated and never reports failure, none of the
    driver's configurations is rejected, clamped or cut short: no error and no
    warning is logged, and each benchmark returns its full operation count,
    1,410,065,408 for the calibration (10,000,000 * 1000 wrapped to 32 bits)
    and 20,000,000 up to 320,000,000 for the queue workloads. *)
Theorem driver_results_on_reliable_queue (q0 : Q) :
  never_fails -> alf_queue_alloc 512 = Some q0 ->
  exists r,
    run_benchmark_tests = Some r /\
    bench_results (trace r)
    = [("for_loop"%string, 1410065408);
       ("ALF-simple"%string, 20000000); ("ALF-multi"%string, 25600000);
       ("ALF-bulk2"%string, 40000000); ("ALF-bulk4"%string, 80000000);
       ("ALF-bulk6"%string, 120000000); ("ALF-bulk8"%string, 160000000);
       ("ALF-bulk16"%string, 320000000)] /\
    diagnostics (trace r) = [].
Proof.
  intros Hnf Halloc.
  unfold run_benchmark_tests. cbv zeta.
  rewrite calibration_run. unfold and_then at 1. cbv beta iota.
  rewrite Halloc. simpl snd.
  set (tr0 := QueueAlloc 512 true :: _).
  assert (R0 : bench_results tr0 = [("for_loop"%string, 1410065408)]) by reflexivity.
  assert (G0 : diagnostics tr0 = []) by reflexivity.
  change time_bench_single_enqueue_dequeue with (workload SingleOp).
  change time_multi_enqueue_dequeue with (workload UnbatchedMulti).
  change time_BULK_enqueue_dequeue with (workload BulkBatched).
  destruct (then_bench_clean SingleOp q0 tr0 10000000 0 "ALF-simple" Hnf)
    as (q1 & tr1 & E1 & R1 & G1); [by_evaluation | by_evaluation | reflexivity |].
  rewrite E1. unfold and_then at 1.
  destruct (then_bench_clean UnbatchedMulti q1 tr1 (10000000 / 100) 128
              "ALF-multi" Hnf)
    as (q2 & tr2 & E2 & R2 & G2); [by_evaluation | by_evaluation | reflexivity |].
  rewrite E2. unfold and_then at 1.
  destruct (then_bench_clean BulkBatched q2 tr2 10000000 2 "ALF-bulk2" Hnf)
    as (q3 & tr3 & E3 & R3 & G3); [by_evaluation | by_evaluation | reflexivity |].
  rewrite E3. unfold and_then at 1.
  destruct (then_bench_clean BulkBatched q3 tr3 10000000 4 "ALF-bulk4" Hnf)
    as (q4 & tr4 & E4 & R4 & G4); [by_evaluation | by_evaluation | reflexivity |].
  rewrite E4. unfold and_then at 1.
  destruct (then_bench_clean BulkBatched q4 tr4 10000000 6 "ALF-bulk6" Hnf)
    as (q5 & tr5 & E5 & R5 & G5); [by_evaluation | by_evaluation | reflexivity |].
  rewrite E5. unfold and_then at 1.
  destruct (then_bench_clean BulkBatched q5 tr5 10000000 8 "ALF-bulk8" Hnf)
    as (q6 & tr6 & E6 & R6 & G6); [by_evaluation | by_evaluation | reflexivity |].
  rewrite E6. unfold and_then at 1.
  destruct (then_bench_clean BulkBatched q6 tr6 10000000 16 "ALF-bulk16" Hnf)
    as (q7 & tr7 & E7 & R7 & G7); [by_evaluation | by_evaluation | reflexivity |].
  rewrite E7. unfold and_then at 1.
  eexists. split; [reflexivity |]. cbn [trace snd]. split.
  - change (bench_results (QueueFree :: tr7)) with (bench_results tr7).
    rewrite R7, R6, R5, R4, R3, R2, R1, R0. reflexivity.
  - change (diagnostics (QueueFree :: tr7)) with (diagnostics tr7).
    rewrite G7, G6, G5, G4, G3, G2, G1, G0. reflexivity.
Qed.

End DriverSteps.

(** ** The further properties at concrete configurations *)

Lemma timer_discipline_witness :
  wf_record {| loops := 100; step := 0 |} /\
  0 <= ops_per_iteration SingleOp {| loops := 100; step := 0 |} /\
  exists r,
    workload (ops := Sim.sim_ops true Sim.never (Sim.at_call 5)) SingleOp
             {| loops := 100; step := 0 |} (Some Sim.fresh) = Some r /\
    filter is_start (trace r) = [TimeBenchStart] /\
    filter is_stop (trace r)
    = (if negb (any_failure (trace r)) then [TimeBenchStop 200] else []).
Proof.
  assert (Hwf : wf_record {| loops := 100; step := 0 |}) by by_evaluation.
  assert (Hops : 0 <= ops_per_iteration SingleOp {| loops := 100; step := 0 |})
    by by_evaluation.
  split; [exact Hwf |]. split; [exact Hops |].
  destruct (timer_discipline (ops := Sim.sim_ops true Sim.never (Sim.at_call 5))
              SingleOp {| loops := 100; step := 0 |} Sim.fresh Hwf Hops)
    as (r & E & Hstart & Hstop & _).
  exists r. split; [exact E |]. split; [exact Hstart | exact Hstop].
Defined.

Lemma zero_loops_run_witness :
  loops {| loops := 0; step := 50 |} = 0 /\
  exists r,
    workload BulkBatched {| loops := 0; step := 50 |} (Some (Ring.empty 512)) = Some r /\
    ret r = 0 /\ queue_after r = Some (Ring.empty 512) /\
    trace r = [TimeBenchStop 0; TimeBenchStart; PrWarn msg_bulk_cap [50; 32]].
Proof.
  assert (H0 : loops {| loops := 0; step := 50 |} = 0) by reflexivity.
  split; [exact H0 |].
  destruct (zero_loops_run BulkBatched {| loops := 0; step := 50 |}
              (Ring.empty 512) H0) as (r & E & Hret & Hq & Htr & _).
  exists r. split; [exact E |]. split; [exact Hret |]. split; [exact Hq | exact Htr].
Defined.

Lemma negative_step_no_calls_witness :
  wf_record {| loops := 5; step := 4294967295 |} /\
  ops_per_iteration BulkBatched {| loops := 5; step := 4294967295 |} < 0 /\
  exists r,
    workload BulkBatched {| loops := 5; step := 4294967295 |}
             (Some (Ring.empty 512)) = Some r /\
    ret r = 0 /\ queue_calls (trace r) = [].
Proof.
  assert (Hwf : wf_record {| loops := 5; step := 4294967295 |}) by by_evaluation.
  assert (Hneg : ops_per_iteration BulkBatched {| loops := 5; step := 4294967295 |} < 0)
    by by_evaluation.
  split; [exact Hwf |]. split; [exact Hneg |].
  destruct (negative_step_no_calls BulkBatched {| loops := 5; step := 4294967295 |}
              (Ring.empty 512) Hwf Hneg) as (r & E & Hret & _ & Hcalls & _).
  exists r. split; [exact E |]. split; [exact Hret | exact Hcalls].
Defined.

Lemma bulk_calls_within_buffer_witness :
  wf_record {| loops := 3; step := 4 |} /\
  exists r,
    time_BULK_enqueue_dequeue {| loops := 3; step := 4 |} (Some (Ring.empty 2))
    = Some r /\
    calls_within_buffer (trace r).
Proof.
  assert (Hwf : wf_record {| loops := 3; step := 4 |}) by by_evaluation.
  split; [exact Hwf |].
  exact (bulk_calls_within_buffer {| loops := 3; step := 4 |} (Ring.empty 2) Hwf).
Defined.

Lemma bulk_within_buffer_witness :
  never_fails (ops := Sim.reliable) /\
  wf_record {| loops := 10000000; step := 16 |} /\
  0 <= bulk_requested {| loops := 10000000; step := 16 |} <= MAX_BULK /\
  2 * 10000000 * bulk_requested {| loops := 10000000; step := 16 |} < two32 - 1 /\
  exists r,
    time_BULK_enqueue_dequeue (ops := Sim.reliable)
      {| loops := 10000000; step := 16 |} (Some Sim.fresh) = Some r /\
    warnings (trace r) = [] /\
    hd_error (trace r) = Some (TimeBenchStop 320000000) /\
    ret r = 320000000.
Proof.
  assert (Hnf : never_fails (ops := Sim.reliable))
    by (split; intros; simpl; unfold Sim.never; lia).
  assert (Hwf : wf_record {| loops := 10000000; step := 16 |}) by by_evaluation.
  assert (Hb : 0 <= bulk_requested {| loops := 10000000; step := 16 |} <= MAX_BULK)
    by by_evaluation.
  assert (Hg : 2 * 10000000 * bulk_requested {| loops := 10000000; step := 16 |}
               < two32 - 1) by by_evaluation.
  repeat (split; [assumption |]).
  destruct (bulk_within_buffer (ops := Sim.reliable) {| loops := 10000000; step := 16 |}
              Sim.fresh Hnf Hwf Hb Hg) as (r & E & Hwarn & _ & Hstop & Hret).
  exists r. split; [exact E |]. split; [exact Hwarn |]. split; [exact Hstop | exact Hret].
Defined.

Lemma calls_follow_rounds_witness :
  wf_record {| loops := 100; step := 0 |} /\
  0 <= ops_per_iteration SingleOp {| loops := 100; step := 0 |} /\
  total_ops SingleOp {| loops := 100; step := 0 |} < two32 - 1 /\
  exists r,
    workload (ops := Sim.sim_ops true Sim.never (Sim.at_call 5)) SingleOp
             {| loops := 100; step := 0 |} (Some Sim.fresh) = Some r /\
    if any_failure (trace r) then
      exists n tail rest,
        Z.of_nat n < 100 /\
        calls_made (trace r) = rounds [Enq 1; Deq 1] n ++ tail /\
        [Enq 1; Deq 1] = tail ++ rest /\ tail <> []
    else calls_made (trace r) = rounds [Enq 1; Deq 1] 100.
Proof.
  assert (Hwf : wf_record {| loops := 100; step := 0 |}) by by_evaluation.
  assert (Hops : 0 <= ops_per_iteration SingleOp {| loops := 100; step := 0 |})
    by by_evaluation.
  assert (Htot : total_ops SingleOp {| loops := 100; step := 0 |} < two32 - 1)
    by by_evaluation.
  split; [exact Hwf |]. split; [exact Hops |]. split; [exact Htot |].
  exact (calls_follow_rounds (ops := Sim.sim_ops true Sim.never (Sim.at_call 5))
           SingleOp {| loops := 100; step := 0 |} Sim.fresh Hwf Hops Htot).
Defined.

(** The calls of the failing run of [single_op_fifth_dequeue_fails]: four
    full rounds, then the fifth up to its failed dequeue. *)
Example fifth_dequeue_fails_calls :
  option_map (fun r => calls_made (trace r))
    (time_bench_single_enqueue_dequeue
       (ops := Sim.sim_ops true Sim.never (Sim.at_call 5))
       {| loops := 100; step := 0 |} (Some Sim.fresh))
  = Some (rounds [Enq 1; Deq 1] 4 ++ [Enq 1; Deq 1]).
Proof. vm_compute. reflexivity. Qed.

Lemma driver_runs_every_benchmark_witness :
  alf_queue_alloc (alf_queue_ops := Ring.ring_ops) 512 = Some (Ring.empty 512) /\
  exists r,
    run_benchmark_tests (ops := Ring.ring_ops) = Some r /\
    ret r = 0 /\ queue_after r = None /\
    driver_steps (trace r)
    = [Ran "for_loop"; Allocated 512;
       Ran "ALF-simple"; Ran "ALF-multi";
       Ran "ALF-bulk2"; Ran "ALF-bulk4"; Ran "ALF-bulk6";
       Ran "ALF-bulk8"; Ran "ALF-bulk16"; Freed] /\
    hd_error (trace r) = Some QueueFree.
Proof.
  assert (Halloc : alf_queue_alloc (alf_queue_ops := Ring.ring_ops) 512
                   = Some (Ring.empty 512)) by reflexivity.
  split; [exact Halloc |].
  exact (driver_runs_every_benchmark (ops := Ring.ring_ops) (Ring.empty 512) Halloc).
Defined.

Lemma driver_results_on_reliable_queue_witness :
  never_fails (ops := Sim.reliable) /\
  alf_queue_alloc (alf_queue_ops := Sim.reliable) 512 = Some Sim.fresh /\
  exists r,
    run_benchmark_tests (ops := Sim.reliable) = Some r /\
    bench_results (trace r)
    = [("for_loop"%string, 1410065408);
       ("ALF-simple"%string, 20000000); ("ALF-multi"%string, 25600000);
       ("ALF-bulk2"%string, 40000000); ("ALF-bulk4"%string, 80000000);
       ("ALF-bulk6"%string, 120000000); ("ALF-bulk8"%string, 160000000);
       ("ALF-bulk16"%string, 320000000)] /\
    diagnostics (trace r) = [].
Proof.
  assert (Hnf : never_fails (ops := Sim.reliable))
    by (split; intros; simpl; unfold Sim.never; lia).
  assert (Halloc : alf_queue_alloc (alf_queue_ops := Sim.reliable) 512
                   = Some Sim.fresh) by reflexivity.
  split; [exact Hnf |]. split; [exact Halloc |].
  exact (driver_results_on_reliable_queue (ops := Sim.reliable) Sim.fresh Hnf Halloc).
Defined.
